(** * Satchari survey form: rank store, validation, sanitizer, normalizer, delivery

    A shallow embedding of the JavaScript core of the survey form:
    - [updateRank]          (hooks/useExclusiveRanking.js)
    - [hasAnyRank], [validateForm]   (src/utils/formValidation.js)
    - [sanitizeTextInput], [sanitizeCommentInput]   (utils/sanitization.js)
    - [normalizeFormData], [submitForm]   (services/formSubmissionService.js)

    Conventions of the embedding.
    - A JavaScript string is a Rocq [string]; one character stands for one
      UTF-16 code unit below 256.
    - A JavaScript object used as a dictionary is a [gmap].  The per-question
      object is keyed by option index: the code only ever writes keys
      [[optIdx]] with [optIdx] a non-negative integer, and reads them back with
      [parseInt(key)], so the key is kept as the [nat] it denotes.
    - Integers of the code (attempt counters, milliseconds, lengths) are far
      below 2^53, where JavaScript numbers are exact; they are [nat] or [Z]. *)

From Stdlib Require Import ZArith Lia Ascii.
From Stdlib Require String.
From stdpp Require Import base decidable option list gmap fin_maps strings pretty.

#[local] Set Warnings "-clear-no-such-hyp,-abstract-large-number".

(** ** Data model *)

(** The unset label (the empty string of the code). *)
Definition UNSET : string := EmptyString.

(** [const ranks = ["1","2","3","4","5","No"]] of the form component. *)
Definition ranks : list string := ["1"; "2"; "3"; "4"; "5"; "No"].

(** The numeric labels. *)
Definition numericRanks : list string := ["1"; "2"; "3"; "4"; "5"].

(** RankLabel: a rank or the unset label. *)
Definition RankLabel : list string := ranks ++ [UNSET].

(** [responses[qId]?.[optIdx]]: the label an option holds, if any. *)
Definition getRank (responses : gmap string (gmap nat string))
    (qId : string) (optIdx : nat) : option string :=
  responses !! qId ≫= (λ qData, qData !! optIdx).

(** ** hooks/useExclusiveRanking.js *)

Module Ranking.

(** One iteration of the [Object.keys(updatedQData).forEach] callback: the
    object is updated in place, so the test reads the current object. *)
Definition clearIfSame (optIdx : nat) (rank : string)
    (updatedQData : gmap nat string) (keyNum : nat) : gmap nat string :=
  match updatedQData !! keyNum with
  | Some held =>
      if decide (keyNum ≠ optIdx ∧ held = rank)
      then <[keyNum := UNSET]> updatedQData
      else updatedQData
  | None => updatedQData
  end.

(** The whole [forEach] over a list of keys. *)
Definition forEachKey (optIdx : nat) (rank : string)
    (keys : list nat) (qData : gmap nat string) : gmap nat string :=
  foldl (clearIfSame optIdx rank) qData keys.

(** [Object.keys(o)]. *)
Definition objectKeys (o : gmap nat string) : list nat := (map_to_list o).*1.

(** The state update of [updateRank(qId, optIdx, rank)]: the function passed
    to [setResponses], from the previous state to the next. *)
Definition updateRank (qId : string) (optIdx : nat) (rank : string)
    (prevResponses : gmap string (gmap nat string))
    : gmap string (gmap nat string) :=
  let newResponses :=
    match prevResponses !! qId with
    | Some _ => prevResponses
    | None => <[qId := ∅]> prevResponses
    end in
  let qData := default ∅ (newResponses !! qId) in
  if decide (rank = UNSET) then
    <[qId := <[optIdx := UNSET]> qData]> newResponses
  else
    let updatedQData := forEachKey optIdx rank (objectKeys qData) qData in
    <[qId := <[optIdx := rank]> updatedQData]> newResponses.

(** The second copy of the hook in the repository (the listing that follows
    IMPLEMENTATION_SUMMARY.md), which guards the sweep with
    [if (rank !== "No")] under the comment that "No" is non-exclusive. *)
Definition updateRankGuarded (qId : string) (optIdx : nat) (rank : string)
    (prevResponses : gmap string (gmap nat string))
    : gmap string (gmap nat string) :=
  let newResponses :=
    match prevResponses !! qId with
    | Some _ => prevResponses
    | None => <[qId := ∅]> prevResponses
    end in
  let qData := default ∅ (newResponses !! qId) in
  if decide (rank = UNSET) then
    <[qId := <[optIdx := UNSET]> qData]> newResponses
  else
    let updatedQData :=
      if decide (rank ≠ "No")
      then forEachKey optIdx rank (objectKeys qData) qData
      else qData in
    <[qId := <[optIdx := rank]> updatedQData]> newResponses.

(** The per-question object that [updateRank] stores under [qId], as a
    function of the one it found there (see [updateRank_insert]). *)
Definition nextQData (optIdx : nat) (rank : string)
    (qData : gmap nat string) : gmap nat string :=
  if decide (rank = UNSET) then <[optIdx := UNSET]> qData
  else <[optIdx := rank]> (forEachKey optIdx rank (objectKeys qData) qData).

(** States reachable from the empty state of [useState({})] by calls of
    [updateRank]. *)
Inductive reachable : gmap string (gmap nat string) → Prop :=
  | reachable_init : reachable ∅
  | reachable_step qId optIdx rank s :
      reachable s → reachable (updateRank qId optIdx rank s).

(** Within every question a label of [labels] is held by at most one
    option. *)
Definition exclusive (labels : list string)
    (s : gmap string (gmap nat string)) : Prop :=
  ∀ qId i j rank,
    rank ∈ labels →
    getRank s qId i = Some rank → getRank s qId j = Some rank → i = j.

End Ranking.

(** ** JavaScript values, strings and completions *)

Module Js.

(** The values a caller can pass where the code expects a string. *)
Inductive Value :=
  | Undefined
  | Null
  | Boolean (b : bool)
  | Number (n : Z)
  | Str (s : string)
  | Object.

(** [typeof v === "string"]. *)
Definition isString (v : Value) : bool :=
  match v with Str _ => true | _ => false end.

(** ToBoolean: what [!v] negates. *)
Definition toBoolean (v : Value) : bool :=
  match v with
  | Undefined | Null => false
  | Boolean b => b
  | Number n => negb (n =? 0)%Z
  | Str s => negb (bool_decide (s = EmptyString))
  | Object => true
  end.

(** The outcome of evaluating an expression: a value, or a thrown error. *)
Inductive Completion (A : Type) :=
  | Normal (a : A)
  | Throw (message : string).
Arguments Normal {A} a.
Arguments Throw {A} message.

Definition bind {A B} (c : Completion A) (k : A → Completion B) : Completion B :=
  match c with
  | Normal a => k a
  | Throw e => Throw e
  end.

(** White space of [String.prototype.trim], among the code units below 256:
    TAB, LF, VT, FF, CR, SP and NBSP. *)
Definition isWhiteSpace (c : ascii) : bool :=
  let n := nat_of_ascii c in
  ((9 <=? n) && (n <=? 13)) || (n =? 32) || (n =? 160).

Fixpoint trimStart (s : string) : string :=
  match s with
  | EmptyString => EmptyString
  | String c s' => if isWhiteSpace c then trimStart s' else s
  end.

Fixpoint trimEnd (s : string) : string :=
  match s with
  | EmptyString => EmptyString
  | String c s' =>
      match trimEnd s' with
      | EmptyString => if isWhiteSpace c then EmptyString else String c EmptyString
      | t => String c t
      end
  end.

(** [s.trim()]. *)
Definition trim (s : string) : string := trimEnd (trimStart s).

(** [v.trim()] on an arbitrary value: only strings have the method. *)
Definition callTrim (v : Value) : Completion string :=
  match v with
  | Str s => Normal (trim s)
  | Undefined | Null => Throw "TypeError: Cannot read properties of undefined"
  | _ => Throw "TypeError: text.trim is not a function"
  end.

(** [s.substring(0, n)] for a non-negative integer [n]. *)
Definition substring0 (n : nat) (s : string) : string := String.substring 0 n s.

(** [s.slice(0, end)] for an integer [end]: a negative [end] counts from the
    end of the string. *)
Definition slice0 (s : string) (end_ : Z) : string :=
  let len := Z.of_nat (String.length s) in
  let to := if (end_ <? 0)%Z then Z.max (len + end_) 0 else Z.min end_ len in
  substring0 (Z.to_nat to) s.

(** Canonicalization of a code unit under the [i] flag (without [u]): upper
    case.  Only the ASCII letters are folded here: a code unit of 128 or more
    never canonicalizes to one below 128, so against ASCII patterns the rest of
    the table is irrelevant. *)
Definition canonicalize (c : ascii) : ascii :=
  let n := nat_of_ascii c in
  if (97 <=? n) && (n <=? 122) then ascii_of_nat (n - 32) else c.

(** Match the literal [pattern] at the start of [s], ignoring case; the
    result is the number of code units the match consumed. *)
Fixpoint matchLiteral (pattern s : string) : option nat :=
  match pattern, s with
  | EmptyString, _ => Some 0
  | String p pattern', String c s' =>
      if bool_decide (canonicalize p = canonicalize c)
      then S <$> matchLiteral pattern' s'
      else None
  | String _ _, EmptyString => None
  end.

(** Match an alternation of literals at the start of [s]: the first
    alternative that matches wins. *)
Fixpoint matchAlternation (alternatives : list string) (s : string) : option nat :=
  match alternatives with
  | [] => None
  | pattern :: rest =>
      match matchLiteral pattern s with
      | Some n => Some n
      | None => matchAlternation rest s
      end
  end.

(** [s.replace(/a1|a2|.../gi, "")] for non-empty literal alternatives: scan
    from the left; where the alternation matches, the matched code units are
    dropped ([skip] counts those still to drop) and scanning resumes behind
    the match; elsewhere the code unit is kept. *)
Fixpoint replaceAllFrom (alternatives : list string) (skip : nat) (s : string) : string :=
  match s with
  | EmptyString => EmptyString
  | String c s' =>
      match skip with
      | S skip' => replaceAllFrom alternatives skip' s'
      | 0 =>
          match matchAlternation alternatives s with
          | Some (S skip') => replaceAllFrom alternatives skip' s'
          | _ => String c (replaceAllFrom alternatives 0 s')
          end
      end
  end.

Definition replaceAll (alternatives : list string) (s : string) : string :=
  replaceAllFrom alternatives 0 s.

(** [s.includes(t)], ignoring case or not. *)
Fixpoint isPrefix (t s : string) : bool :=
  match t, s with
  | EmptyString, _ => true
  | String a t', String b s' => bool_decide (a = b) && isPrefix t' s'
  | String _ _, EmptyString => false
  end.

Fixpoint includes (s t : string) : bool :=
  isPrefix t s ||
  match s with
  | EmptyString => false
  | String _ s' => includes s' t
  end.

Fixpoint includesIgnoreCase (s t : string) : bool :=
  bool_decide (is_Some (matchLiteral t s)) ||
  match s with
  | EmptyString => false
  | String _ s' => includesIgnoreCase s' t
  end.

(** [s.repeat(n)]. *)
Fixpoint repeat (s : string) (n : nat) : string :=
  match n with
  | 0 => EmptyString
  | S n' => s +:+ repeat s n'
  end.

End Js.

(** ** utils/sanitization.js *)

Module Sanitization.
Import Js.

Definition MAX_TEXT_LENGTH : Z := 5000.
Definition MAX_COMMENT_LENGTH : Z := 10000.

(** The alternatives of [/<script|<iframe|javascript:|onerror=/gi]. *)
Definition dangerousPatterns : list string :=
  ["<script"; "<iframe"; "javascript:"; "onerror="].

(** [sanitizeTextInput(text, maxLength = MAX_TEXT_LENGTH)]; [maxLength] is
    [None] when the caller leaves it out. *)
Definition sanitizeTextInput (text : Value) (maxLength : option Z) : Completion string :=
  let maxLength := default MAX_TEXT_LENGTH maxLength in
  if negb (toBoolean text) || negb (isString text) then Normal EmptyString
  else
    bind (callTrim text) (λ trimmed,
    Normal (replaceAll dangerousPatterns (slice0 trimmed maxLength))).

Definition sanitizeCommentInput (text : Value) : Completion string :=
  sanitizeTextInput text (Some MAX_COMMENT_LENGTH).

End Sanitization.

(** What deleting the dangerous patterns means, to compare [replaceAll]
    with. *)
Module SanitizationSpec.
Import Js Sanitization.

(** The code units of a string. *)
Definition chars (s : string) : list ascii := String.list_ascii_of_string s.

(** [occ] is [pattern] up to the case of letters. *)
Definition equalIgnoreCase (pattern occ : string) : Prop :=
  canonicalize <$> chars pattern = canonicalize <$> chars occ.

(** Some dangerous pattern occurs at the very start of [s]. *)
Definition occursAtStart (s : string) : Prop :=
  ∃ pattern occ rest,
    pattern ∈ dangerousPatterns ∧ equalIgnoreCase pattern occ ∧ s = occ +:+ rest.

(** A string without white space at either end. *)
Definition trimmed (t : string) : Prop :=
  (∀ c t', t = String c t' → isWhiteSpace c = false)
  ∧ (∀ t' c, t = t' +:+ String c EmptyString → isWhiteSpace c = false).

(** [trims s t]: [t] is [s] without its leading and trailing white space. *)
Definition trims (s t : string) : Prop :=
  ∃ pre post,
    Forall (λ c, isWhiteSpace c = true) (chars pre)
    ∧ Forall (λ c, isWhiteSpace c = true) (chars post)
    ∧ s = pre +:+ t +:+ post ∧ trimmed t.

(** The first [n] code units of a string. *)
Definition truncate (n : nat) (s : string) : string :=
  String.string_of_list_ascii (take n (chars s)).

(** [deletes s out]: reading [s] from the left, every occurrence of a
    dangerous pattern met is deleted and reading resumes behind it; every
    other code unit is kept.  The output is not read again. *)
Inductive deletes : string → string → Prop :=
  | deletes_empty : deletes EmptyString EmptyString
  | deletes_occurrence pattern occ rest out :
      pattern ∈ dangerousPatterns → equalIgnoreCase pattern occ →
      deletes rest out → deletes (occ +:+ rest) out
  | deletes_keep c rest out :
      ¬ occursAtStart (String c rest) →
      deletes rest out → deletes (String c rest) (String c out).

End SanitizationSpec.

(** ** Questions *)

Module Question.
Record t := mk {
  id : string;
  text : string;
  section : option string;
  options : list string;
}.
End Question.

(** ** utils/formValidation.js *)

Module Validation.

Inductive ValidationError :=
  | QuestionError (qId : string) (qIdx : nat) (message : string)
  | FinalCommentError (message : string).

Record Result := mkResult {
  isValid : bool;
  errors : list ValidationError;
}.

(** [Object.values(o)]. *)
Definition objectValues (o : gmap nat string) : list string := (map_to_list o).*2.

(** [rank && rank !== ""] for a string [rank]. *)
Definition isRanked (rank : string) : bool :=
  Js.toBoolean (Js.Str rank) && negb (bool_decide (rank = EmptyString)).

(** [hasAnyRank(qData)], where [qData] is [undefined] or an object. *)
Definition hasAnyRank (qData : option (gmap nat string)) : bool :=
  match qData with
  | None => false
  | Some o => existsb isRanked (objectValues o)
  end.

Definition questionMessage (idx : nat) (q : Question.t) : string :=
  "Question " +:+ pretty (idx + 1) +:+ ": "
    +:+ Js.substring0 50 (Question.text q) +:+ "...".

Definition finalCommentMessage : string :=
  "Final Comments: Please share your recommendations".

(** The callback of [questions.forEach((q, idx) => ...)]: [errors.push]
    appends to the array. *)
Definition checkQuestion (responses : gmap string (gmap nat string))
    (errors : list ValidationError) (entry : nat * Question.t)
    : list ValidationError :=
  let '(idx, q) := entry in
  let qData := responses !! Question.id q in
  if negb (hasAnyRank qData)
  then errors ++ [QuestionError (Question.id q) idx (questionMessage idx q)]
  else errors.

(** The elements of an array with their indices, as [forEach] visits them. *)
Definition entries {A} (l : list A) : list (nat * A) := imap (λ i x, (i, x)) l.

Definition validateForm (questions : list Question.t)
    (responses : gmap string (gmap nat string)) (finalComment : string) : Result :=
  let errors := foldl (checkQuestion responses) [] (entries questions) in
  let errors :=
    if negb (Js.toBoolean (Js.Str finalComment))
       || negb (Js.toBoolean (Js.Str (Js.trim finalComment)))
    then errors ++ [FinalCommentError finalCommentMessage]
    else errors in
  {| isValid := (length errors =? 0); errors := errors |}.

End Validation.

(** The completeness policy in the words of the specification, to compare
    [validateForm] with. *)
Module ValidationSpec.
Import Validation.

(** A question is answered iff some option of it holds a non-empty label. *)
Definition answered (responses : gmap string (gmap nat string)) (q : Question.t) : Prop :=
  ∃ optIdx rank,
    getRank responses (Question.id q) optIdx = Some rank ∧ rank ≠ UNSET.

(** The first [n] characters of a text. *)
Definition firstChars (n : nat) (s : string) : string :=
  String.string_of_list_ascii (take n (String.list_ascii_of_string s)).

(** A comment that is empty or consists of white space only. *)
Definition blank (s : string) : Prop :=
  Forall (λ c, Js.isWhiteSpace c = true) (String.list_ascii_of_string s).

(** The error of the question at position [idx]: its preview is the first 50
    characters of the question text. *)
Definition questionError (idx : nat) (q : Question.t) : ValidationError :=
  QuestionError (Question.id q) idx
    ("Question " +:+ pretty (idx + 1) +:+ ": "
       +:+ firstChars 50 (Question.text q) +:+ "...").

(** One question-type error per unanswered question, in question order;
    [idx] is the position of the first question of the list. *)
Inductive questionErrors (responses : gmap string (gmap nat string))
    : nat → list Question.t → list ValidationError → Prop :=
  | questionErrors_nil idx : questionErrors responses idx [] []
  | questionErrors_answered idx q qs errs :
      answered responses q →
      questionErrors responses (S idx) qs errs →
      questionErrors responses idx (q :: qs) errs
  | questionErrors_unanswered idx q qs errs :
      ¬ answered responses q →
      questionErrors responses (S idx) qs errs →
      questionErrors responses idx (q :: qs) (questionError idx q :: errs).

(** The final-comment error, present iff the comment is blank. *)
Definition commentErrors (finalComment : string) (errs : list ValidationError) : Prop :=
  (blank finalComment ∧ errs = [FinalCommentError finalCommentMessage])
  ∨ (¬ blank finalComment ∧ errs = []).

End ValidationSpec.

(** ** services/formSubmissionService.js *)

Module Submission.
Import Js.

Definition DEFAULT_TIMEOUT_MS : Z := 5000.
Definition DEFAULT_MAX_RETRIES : nat := 3.
Definition DEFAULT_INITIAL_RETRY_DELAY_MS : Z := 1000.

Record Payload := mkPayload {
  timestamp : string;
  responses : gmap string (gmap nat string);
  otherText : gmap string string;
  finalComment : string;
}.

(** [qData[i] || "No"]. *)
Definition orNo (held : option string) : string :=
  match held with
  | Some rank => if toBoolean (Str rank) then rank else "No"
  | None => "No"
  end.

(** The [for (let i = 0; i < numOptions; i++) entry[i] = ...] loop. *)
Definition fillEntry (numOptions : nat) (qData : gmap nat string) : gmap nat string :=
  foldl (λ entry i, <[i := orNo (qData !! i)]> entry) ∅ (seq 0 numOptions).

(** The entry that the body of [questions.forEach] computes for [q]. *)
Definition entryOf (responses : gmap string (gmap nat string))
    (q : Question.t) : gmap nat string :=
  fillEntry (length (Question.options q))
            (default ∅ (responses !! Question.id q)).

(** [normalizeFormData]; [now] is the value of [new Date().toISOString()]. *)
Definition normalizeFormData (now : string) (questions : list Question.t)
    (responses : gmap string (gmap nat string))
    (otherText : gmap string string) (finalComment : string) : Payload :=
  let normalizedResponses :=
    foldl (λ acc q,
             let qId := Question.id q in
             let numOptions := length (Question.options q) in
             let qData := default ∅ (responses !! qId) in
             <[qId := fillEntry numOptions qData]> acc)
          ∅ questions in
  {| timestamp := now;
     responses := normalizedResponses;
     otherText := otherText;
     finalComment := finalComment |}.

(** What a rejected [fetch] throws. *)
Record FetchError := mkFetchError {
  name : string;
  isTypeError : bool;
  message : string;
}.

Inductive FetchOutcome :=
  | Resolved
  | Rejected (error : FetchError).

(** The [options] argument after destructuring with its defaults; [onRetry]
    tells whether a callback was supplied. *)
Record Options := mkOptions {
  maxRetries : nat;
  timeout : Z;
  initialRetryDelay : Z;
  onRetry : bool;
}.

Definition defaultOptions : Options :=
  {| maxRetries := DEFAULT_MAX_RETRIES;
     timeout := DEFAULT_TIMEOUT_MS;
     initialRetryDelay := DEFAULT_INITIAL_RETRY_DELAY_MS;
     onRetry := false |}.

(** What [submitForm] does to the outside world, in order. *)
Inductive Event :=
  | EvFetch (attempt : nat) (url : string) (body : Payload)
  | EvOnRetry (attempt : nat) (errorMessage : string) (delayMs : Z)
  | EvDelay (ms : Z).

Inductive Success := SuccessTrue.

Definition configurationError : string :=
  "Google Apps Script URL is not configured".

(** The error-type cascade of the [catch] block. *)
Definition errorMessage (opts : Options) (error : FetchError) : string :=
  if bool_decide (name error = "AbortError")
  then "Request timeout after " +:+ pretty (timeout opts) +:+ "ms"
  else if isTypeError error
  then "Network error - unable to reach server"
  else message error.

(** [lastError?.message || "Unknown error"]. *)
Definition lastMessage (lastError : option FetchError) : string :=
  match lastError with
  | Some error =>
      if toBoolean (Str (message error)) then message error else "Unknown error"
  | None => "Unknown error"
  end.

Definition exhaustedMessage (opts : Options) (lastError : option FetchError) : string :=
  "Form submission failed after " +:+ pretty (maxRetries opts)
    +:+ " attempts: " +:+ lastMessage lastError.

Section submit.
(** The transport: the outcome of the [attempt]-th call of [fetch]. *)
Variable fetch : nat → FetchOutcome.
Variable data : Payload.
Variable scriptUrl : string.
Variable opts : Options.

(** The [catch] block of one failed attempt: classify the error, tell
    [onRetry] if there is one, and wait unless this was the last attempt. *)
Definition catchBlock (attempt : nat) (error : FetchError) : list Event :=
  let errorMessage := errorMessage opts error in
  let isLastAttempt := attempt =? maxRetries opts in
  if negb isLastAttempt then
    let delayMs := (initialRetryDelay opts * Z.of_nat attempt)%Z in
    (if onRetry opts then [EvOnRetry attempt errorMessage delayMs] else [])
    ++ [EvDelay delayMs]
  else
    (if onRetry opts then [EvOnRetry attempt errorMessage 0] else []).

(** The arguments [onRetry] receives after the failure of [attempt], when
    the error thrown there is [errorAt attempt]. *)
Definition retryCall (errorAt : nat → FetchError) (attempt : nat)
    : nat * string * Z :=
  (attempt, errorMessage opts (errorAt attempt),
   if attempt =? maxRetries opts then 0%Z
   else (initialRetryDelay opts * Z.of_nat attempt)%Z).

(** The [for (let attempt = 1; attempt <= maxRetries; attempt++)] loop,
    entered at [attempt] with [remaining] iterations to go
    ([remaining = maxRetries + 1 - attempt]), and the final [throw]. *)
Fixpoint attemptLoop (remaining attempt : nat) (lastError : option FetchError)
    : list Event * Completion Success :=
  match remaining with
  | 0 => ([], Throw (exhaustedMessage opts lastError))
  | S remaining' =>
      match fetch attempt with
      | Resolved => ([EvFetch attempt scriptUrl data], Normal SuccessTrue)
      | Rejected error =>
          let '(rest, outcome) :=
            attemptLoop remaining' (S attempt) (Some error) in
          (EvFetch attempt scriptUrl data :: catchBlock attempt error ++ rest,
           outcome)
      end
  end.
End submit.

(** [submitForm(data, scriptUrl, options)]; [scriptUrl] is [None] when the
    environment variable is undefined.  The result is the trace of events and
    how the returned promise settles. *)
Definition submitForm (fetch : nat → FetchOutcome) (data : Payload)
    (scriptUrl : option string) (opts : Options)
    : list Event * Completion Success :=
  match scriptUrl with
  | None => ([], Throw configurationError)
  | Some url =>
      if negb (toBoolean (Str url)) then ([], Throw configurationError)
      else attemptLoop fetch data url opts (maxRetries opts) 1 None
  end.

(** Projections of a trace. *)
Definition fetchAttempts (trace : list Event) : list nat :=
  omap (λ e, match e with EvFetch attempt _ _ => Some attempt | _ => None end) trace.

Definition onRetryCalls (trace : list Event) : list (nat * string * Z) :=
  omap (λ e, match e with
             | EvOnRetry attempt msg delayMs => Some (attempt, msg, delayMs)
             | _ => None
             end) trace.

Definition delays (trace : list Event) : list Z :=
  omap (λ e, match e with EvDelay ms => Some ms | _ => None end) trace.

End Submission.

(** ** More of the sources *)

(** The guarded copy of the hook, seen through the per-question object. *)
Module RankingGuarded.
Import Ranking.

(** The per-question object that [updateRankGuarded] stores under [qId]. *)
Definition nextQDataGuarded (optIdx : nat) (rank : string)
    (qData : gmap nat string) : gmap nat string :=
  if decide (rank = UNSET) then <[optIdx := UNSET]> qData
  else <[optIdx := rank]>
         (if decide (rank ≠ "No")
          then forEachKey optIdx rank (objectKeys qData) qData
          else qData).

(** States reachable from the empty state by calls of [updateRankGuarded]. *)
Inductive reachable : gmap string (gmap nat string) → Prop :=
  | reachable_init : reachable ∅
  | reachable_step qId optIdx rank s :
      reachable s → reachable (updateRankGuarded qId optIdx rank s).

End RankingGuarded.

(** [getFirstUnansweredElementId] of utils/formValidation.js. *)
Module Focus.
Import Validation.

(** [e.type === "question"]. *)
Definition isQuestion (e : ValidationError) : bool :=
  match e with QuestionError _ _ _ => true | FinalCommentError _ => false end.

(** [e.type === "final-comment"]. *)
Definition isFinalComment (e : ValidationError) : bool :=
  match e with QuestionError _ _ _ => false | FinalCommentError _ => true end.

(** The text of [e.qId] inside a template literal. *)
Definition qIdText (e : ValidationError) : string :=
  match e with
  | QuestionError qId _ _ => qId
  | FinalCommentError _ => "undefined"
  end.

(** The result is [None] where the code returns [null]. *)
Definition getFirstUnansweredElementId (errors : list ValidationError)
    : option string :=
  match List.find isQuestion errors with
  | Some questionError => Some ("question-" +:+ qIdText questionError)
  | None =>
      match List.find isFinalComment errors with
      | Some _ => Some "final-comments"
      | None => None
      end
  end.

End Focus.

(** [isTextEmpty] and [isTextLengthValid] of utils/sanitization.js. *)
Module TextChecks.
Import Js Sanitization.


(** [isTextLengthValid(text, minLength = 0, maxLength = MAX_TEXT_LENGTH)]. *)
Definition isTextLengthValid (text : Value) (minLength maxLength : option Z)
    : Completion bool :=
  let minLength := default 0%Z minLength in
  let maxLength := default MAX_TEXT_LENGTH maxLength in
  if negb (toBoolean text) || negb (isString text)
  then Normal (minLength =? 0)%Z
  else
    bind (callTrim text) (λ trimmed,
    let len := Z.of_nat (String.length trimmed) in
    Normal ((minLength <=? len)%Z && (len <=? maxLength)%Z)).

End TextChecks.

(** [getErrorMessage] of services/formSubmissionService.js. *)
Module Messages.
Import Js.

Definition timeoutText : string :=
  "The server took too long to respond. Please check your connection and try again.".
Definition networkText : string :=
  "Unable to connect to the server. Please check your internet connection.".
Definition configurationText : string :=
  "Form is not properly configured. Please contact support.".
Definition genericText : string :=
  "An error occurred while submitting your response. Please try again.".

(** [errorMessage] is the [message] property of the error, [None] when it
    is undefined. *)
Definition getErrorMessage (errorMessage : option string) : string :=
  let message :=
    match errorMessage with
    | Some m => if toBoolean (Str m) then m else EmptyString
    | None => EmptyString
    end in
  if includes message "timeout" then timeoutText
  else if includes message "Network error" then networkText
  else if includes message "not configured" then configurationText
  else genericText.

End Messages.

(** The string [sanitizeTextInput] returns for a string (see
    [sanitizeTextInput_Str]). *)
Definition cleanText (maxLength : Z) (s : string) : string :=
  Js.replaceAll Sanitization.dangerousPatterns (Js.slice0 (Js.trim s) maxLength).

(** [handleSubmit] of the form component, as far as it drives the core: the
    requests it causes and what the form shows afterwards. *)
Module App.
Import Js Validation Submission.

Inductive Shown :=
  | ValidationErrors (errors : list ValidationError) (scrollTo : option string)
  | ThankYou (data : Payload)
  | SubmissionError (text : string).

(** The callback of [Object.entries(otherText).reduce(...)]. *)
Definition sanitizeEntry (acc : Completion (gmap string string))
    (entry : string * string) : Completion (gmap string string) :=
  let '(key, value) := entry in
  bind acc (λ acc,
  bind (Sanitization.sanitizeTextInput (Str value) None) (λ clean,
  Normal (<[key := clean]> acc))).

Definition sanitizeOtherText (otherText : gmap string string)
    : Completion (gmap string string) :=
  foldl sanitizeEntry (Normal ∅) (map_to_list otherText).

(** The options [handleSubmit] passes to [submitForm]. *)
Definition submitOptions : Options :=
  {| maxRetries := 3;
     timeout := 5000;
     initialRetryDelay := DEFAULT_INITIAL_RETRY_DELAY_MS;
     onRetry := true |}.

Definition handleSubmit (now : string) (scriptUrl : option string)
    (fetch : nat → FetchOutcome) (questions : list Question.t)
    (responses : gmap string (gmap nat string))
    (otherText : gmap string string) (finalComment : string)
    : list Event * Shown :=
  let result := validateForm questions responses finalComment in
  if negb (isValid result) then
    ([], ValidationErrors (errors result)
           (Focus.getFirstUnansweredElementId (errors result)))
  else
    let prepared :=
      bind (sanitizeOtherText otherText) (λ sanitizedOtherText,
      bind (Sanitization.sanitizeCommentInput (Str finalComment))
           (λ sanitizedFinalComment,
      Normal (normalizeFormData now questions responses
                sanitizedOtherText sanitizedFinalComment))) in
    match prepared with
    | Throw e => ([], SubmissionError (Messages.getErrorMessage (Some e)))
    | Normal data =>
        let '(trace, outcome) := submitForm fetch data scriptUrl submitOptions in
        match outcome with
        | Normal _ => (trace, ThankYou data)
        | Throw e => (trace, SubmissionError (Messages.getErrorMessage (Some e)))
        end
    end.

End App.

(** The payload [handleSubmit] builds from a valid form (see
    [handleSubmit_valid]). *)
Definition preparedData (now : string) (questions : list Question.t)
    (responses : gmap string (gmap nat string))
    (otherText : gmap string string) (finalComment : string)
    : Submission.Payload :=
  Submission.normalizeFormData now questions responses
    (cleanText Sanitization.MAX_TEXT_LENGTH <$> otherText)
    (cleanText Sanitization.MAX_COMMENT_LENGTH finalComment).

(** * Theorems *)

(** ** Properties of the rank store *)

Section ranking_facts.
Import Ranking.
Implicit Types (s : gmap string (gmap nat string)) (m : gmap nat string).

Lemma forEachKey_lookup optIdx rank keys m k :
  forEachKey optIdx rank keys m !! k =
    match m !! k with
    | Some held =>
        if decide (k ∈ keys ∧ k ≠ optIdx ∧ held = rank)
        then Some UNSET else Some held
    | None => None
    end.
Proof.
  unfold forEachKey. revert m.
  induction keys as [|key keys IH]; intros m; cbn [foldl].
  - destruct (m !! k); [|done]. case_decide; [|done]. exfalso; set_solver.
  - rewrite IH. unfold clearIfSame.
    destruct (m !! key) as [held|] eqn:Hkey;
      [destruct (decide (key ≠ optIdx ∧ held = rank)) as [[Hne ->]|Hc]|].
    + destruct (decide (k = key)) as [->|Hk].
      * rewrite lookup_insert_eq, Hkey.
        repeat case_decide; simplify_eq; try done; exfalso; set_solver.
      * rewrite lookup_insert_ne by done.
        destruct (m !! k); [|done].
        repeat case_decide; simplify_eq; try done; exfalso; set_solver.
    + destruct (decide (k = key)) as [Heq|Hk].
      * subst k. rewrite Hkey.
        repeat case_decide; try done; exfalso; naive_solver.
      * destruct (m !! k) as [h|]; [|done].
        repeat case_decide; try done; exfalso; set_solver.
    + destruct (decide (k = key)) as [Heq|Hk].
      * subst k. by rewrite Hkey.
      * destruct (m !! k) as [h|]; [|done].
        repeat case_decide; try done; exfalso; set_solver.
Qed.

Lemma elem_of_objectKeys m k : k ∈ objectKeys m ↔ is_Some (m !! k).
Proof.
  unfold objectKeys. rewrite list_elem_of_fmap. split.
  - intros [[k' v] [-> Hin]]. apply elem_of_map_to_list in Hin. by exists v.
  - intros [v Hv]. exists (k, v). split; [done|].
    by apply elem_of_map_to_list.
Qed.

(** The sweep, read pointwise. *)
Lemma sweep_lookup optIdx rank m k :
  forEachKey optIdx rank (objectKeys m) m !! k =
    match m !! k with
    | Some held =>
        if decide (k ≠ optIdx ∧ held = rank) then Some UNSET else Some held
    | None => None
    end.
Proof.
  rewrite forEachKey_lookup.
  destruct (m !! k) as [held|] eqn:Hk; [|done].
  repeat case_decide; try done; exfalso; [naive_solver|].
  assert (k ∈ objectKeys m) by (apply elem_of_objectKeys; by rewrite Hk).
  naive_solver.
Qed.

Lemma updateRank_insert qId optIdx rank s :
  updateRank qId optIdx rank s =
    <[qId := nextQData optIdx rank (default ∅ (s !! qId))]> s.
Proof.
  unfold updateRank, nextQData.
  destruct (s !! qId) as [m|] eqn:Hq; cbn [default].
  - rewrite Hq. cbn [default]. by case_decide.
  - rewrite lookup_insert_eq. cbn [default].
    case_decide; by rewrite insert_insert_eq.
Qed.

Lemma getRank_default s qId k : getRank s qId k = default ∅ (s !! qId) !! k.
Proof. unfold getRank. by destruct (s !! qId). Qed.

Lemma getRank_updateRank_ne qId optIdx rank s qId' k :
  qId ≠ qId' → getRank (updateRank qId optIdx rank s) qId' k = getRank s qId' k.
Proof.
  intros Hne. rewrite updateRank_insert. unfold getRank.
  by rewrite lookup_insert_ne.
Qed.

Lemma getRank_updateRank qId optIdx rank s k :
  getRank (updateRank qId optIdx rank s) qId k =
    nextQData optIdx rank (default ∅ (s !! qId)) !! k.
Proof.
  rewrite updateRank_insert. unfold getRank. by rewrite lookup_insert_eq.
Qed.

(** The target option holds the label just assigned. *)
Lemma nextQData_lookup_eq optIdx rank m :
  nextQData optIdx rank m !! optIdx = Some rank.
Proof.
  unfold nextQData. case_decide as Hr; rewrite lookup_insert_eq; congruence.
Qed.

(** Any other option keeps its label, unless it held [rank] (and [rank] is
    not the unset label): then it is reset. *)
Lemma nextQData_lookup_ne optIdx rank m k :
  k ≠ optIdx →
  nextQData optIdx rank m !! k =
    match m !! k with
    | Some held =>
        if decide (held = rank) then Some UNSET else Some held
    | None => None
    end.
Proof.
  intros Hk. unfold nextQData.
  case_decide as Hr; rewrite lookup_insert_ne by done.
  - destruct (m !! k) as [held|]; [|done]. case_decide; congruence.
  - rewrite sweep_lookup. destruct (m !! k) as [held|]; [|done].
    repeat case_decide; try done; exfalso; naive_solver.
Qed.

Lemma nextQData_idemp optIdx rank m :
  nextQData optIdx rank (nextQData optIdx rank m) = nextQData optIdx rank m.
Proof.
  apply map_eq. intros k. destruct (decide (k = optIdx)) as [->|Hk].
  - by rewrite !nextQData_lookup_eq.
  - rewrite !nextQData_lookup_ne by done.
    destruct (m !! k) as [held|]; [|done].
    destruct (decide (held = rank)) as [->|Hh].
    + case_decide; congruence.
    + by rewrite decide_False.
Qed.

Lemma exclusive_updateRank labels qId optIdx rank s :
  UNSET ∉ labels →
  exclusive labels s → exclusive labels (updateRank qId optIdx rank s).
Proof.
  intros Hun Hex q a b l Hl Ha Hb.
  assert (l ≠ UNSET) as Hne by (intros ->; done).
  destruct (decide (qId = q)) as [<-|Hq].
  2:{ rewrite getRank_updateRank_ne in Ha, Hb by done. eauto. }
  rewrite getRank_updateRank in Ha, Hb.
  assert (∀ k, k ≠ optIdx →
            nextQData optIdx rank (default ∅ (s !! qId)) !! k = Some l →
            getRank s qId k = Some l ∧ l ≠ rank) as Hold.
  { intros k Hk. rewrite nextQData_lookup_ne, getRank_default by done.
    destruct (default ∅ (s !! qId) !! k) as [held|]; [|done].
    case_decide; intros; simplify_eq; done. }
  destruct (decide (a = optIdx)) as [->|Hao], (decide (b = optIdx)) as [->|Hbo];
    [done| | |].
  - rewrite nextQData_lookup_eq in Ha. simplify_eq.
    destruct (Hold b Hbo Hb) as [_ ?]. done.
  - rewrite nextQData_lookup_eq in Hb. simplify_eq.
    destruct (Hold a Hao Ha) as [_ ?]. done.
  - destruct (Hold a Hao Ha) as [? _], (Hold b Hbo Hb) as [? _]. eauto.
Qed.

Lemma exclusive_empty labels : exclusive labels ∅.
Proof. intros q a b l _ Ha _. unfold getRank in Ha. by rewrite lookup_empty in Ha. Qed.

Lemma exclusive_reachable labels s :
  UNSET ∉ labels → reachable s → exclusive labels s.
Proof.
  intros Hun Hs. induction Hs as [|qId optIdx rank s _ IH].
  - apply exclusive_empty.
  - by apply exclusive_updateRank.
Qed.

Lemma UNSET_not_numeric : UNSET ∉ numericRanks.
Proof. unfold numericRanks, UNSET. set_solver. Qed.

(** Assigning the same non-empty label to two options in turn leaves it on
    the second only. *)
Lemma updateRank_twice_same qId i j rank s :
  i ≠ j → rank ≠ UNSET →
  getRank (updateRank qId j rank (updateRank qId i rank s)) qId i = Some UNSET
  ∧ getRank (updateRank qId j rank (updateRank qId i rank s)) qId j = Some rank.
Proof.
  intros Hij Hr. rewrite !getRank_updateRank. split.
  - rewrite nextQData_lookup_ne by done.
    rewrite updateRank_insert, lookup_insert_eq. simpl.
    rewrite nextQData_lookup_eq. by rewrite decide_True.
  - apply nextQData_lookup_eq.
Qed.

Lemma updateRankGuarded_No qId optIdx s :
  updateRankGuarded qId optIdx "No" s =
    <[qId := <[optIdx := "No"]> (default ∅ (s !! qId))]> s.
Proof.
  unfold updateRankGuarded.
  destruct (s !! qId) as [m|] eqn:Hq; simpl.
  - by rewrite Hq.
  - rewrite lookup_insert_eq. simpl. by rewrite insert_insert_eq.
Qed.

(** The guarded copy of the hook does exempt "No": two options marked "No"
    in turn both hold it, and every other option keeps its label. *)
Lemma updateRankGuarded_No_twice qId i j s :
  let s' := updateRankGuarded qId j "No" (updateRankGuarded qId i "No" s) in
  getRank s' qId i = Some "No" ∧ getRank s' qId j = Some "No"
  ∧ ∀ k, k ≠ i → k ≠ j → getRank s' qId k = getRank s qId k.
Proof.
  intros s'. subst s'. rewrite !updateRankGuarded_No.
  rewrite lookup_insert_eq. simpl. unfold getRank at 1 2 3.
  rewrite !lookup_insert_eq. simpl. split_and!.
  - destruct (decide (i = j)) as [->|Hij].
    + by rewrite lookup_insert_eq.
    + rewrite lookup_insert_ne by done. by rewrite lookup_insert_eq.
  - by rewrite lookup_insert_eq.
  - intros k Hi Hj. rewrite !lookup_insert_ne by done.
    by rewrite getRank_default.
Qed.

End ranking_facts.

(** ** Claims about the rank store *)

(** C1 (as the code behaves).  On [updateRank] the label "No" goes through the
    same sweep as a numeric label: from the empty state, marking option 0 of
    "q1" with "No" and then option 1 with "No" leaves option 0 unset and only
    option 1 holding "No".  The claim asks for both to hold "No", which is
    what [updateRankGuarded] does ([updateRankGuarded_No_twice]). *)
Theorem updateRank_No_sweeps_No :
  let s := Ranking.updateRank "q1" 1 "No" (Ranking.updateRank "q1" 0 "No" ∅) in
  getRank s "q1" 0 = Some UNSET ∧ getRank s "q1" 1 = Some "No".
Proof.
  intros s. subst s. by apply updateRank_twice_same.
Qed.

(** C2.  Numeric-rank exclusivity is preserved by every [updateRank]; hence
    in every state reachable from the empty state each of "1".."5" is held by
    at most one option of each question; and for distinct options [i], [j] of
    a question, assigning "3" to [i] and then to [j] leaves [i] unset and [j]
    holding "3", whatever the prior state. *)
Theorem numeric_exclusivity_invariant :
  (∀ s qId optIdx rank,
     Ranking.exclusive numericRanks s →
     Ranking.exclusive numericRanks (Ranking.updateRank qId optIdx rank s))
  ∧ (∀ s, Ranking.reachable s → Ranking.exclusive numericRanks s)
  ∧ (∀ s qId i j, i ≠ j →
       let s' := Ranking.updateRank qId j "3" (Ranking.updateRank qId i "3" s) in
       getRank s' qId i = Some UNSET ∧ getRank s' qId j = Some "3").
Proof.
  split_and!.
  - intros. apply exclusive_updateRank; [apply UNSET_not_numeric|done].
  - intros. apply exclusive_reachable; [apply UNSET_not_numeric|done].
  - intros s qId i j Hij s'. subst s'. by apply updateRank_twice_same.
Qed.

Lemma numeric_exclusivity_invariant_witness :
  Ranking.exclusive numericRanks (Ranking.updateRank "q1" 0 "3" ∅)
  ∧ getRank (Ranking.updateRank "q1" 1 "3" (Ranking.updateRank "q1" 0 "3" ∅))
      "q1" 0 = Some UNSET.
Proof.
  destruct numeric_exclusivity_invariant as (_ & Hreach & Htwice). split.
  - apply Hreach. apply Ranking.reachable_step, Ranking.reachable_init.
  - apply (Htwice ∅ "q1" 0 1). lia.
Defined.

(** C9.  [updateRank] is idempotent: the same call twice in a row yields the
    state that one call yields, for every state, question, option index and
    label (in particular for indices in range and the labels of RankLabel). *)
Theorem updateRank_idempotent s qId optIdx rank :
  Ranking.updateRank qId optIdx rank (Ranking.updateRank qId optIdx rank s)
  = Ranking.updateRank qId optIdx rank s.
Proof.
  rewrite (updateRank_insert qId optIdx rank (Ranking.updateRank _ _ _ _)).
  rewrite updateRank_insert, lookup_insert_eq. simpl.
  by rewrite nextQData_idemp, insert_insert_eq.
Qed.

(** ** Properties of strings *)

Section string_facts.
Import Js.

Lemma toBoolean_Str s : toBoolean (Str s) = true ↔ s ≠ EmptyString.
Proof.
  simpl. rewrite negb_true_iff, bool_decide_eq_false. done.
Qed.

Lemma trimEnd_empty s : trimEnd s = EmptyString ↔ ValidationSpec.blank s.
Proof.
  unfold ValidationSpec.blank. induction s as [|c s IH]; simpl.
  - split; [constructor|done].
  - rewrite Forall_cons. destruct (trimEnd s) as [|c' t].
    + destruct (isWhiteSpace c); split; try done.
      * intros _. split; [done|]. by apply IH.
      * by intros [? _].
    + split; [done|]. intros [_ H]. by apply IH in H.
Qed.

Lemma blank_trimStart s :
  ValidationSpec.blank (trimStart s) ↔ ValidationSpec.blank s.
Proof.
  unfold ValidationSpec.blank. induction s as [|c s IH]; simpl; [done|].
  destruct (isWhiteSpace c) eqn:Hc; [|done].
  rewrite IH, Forall_cons. naive_solver.
Qed.

(** [trim] yields the empty string exactly on blank strings. *)
Lemma trim_empty s : trim s = EmptyString ↔ ValidationSpec.blank s.
Proof. unfold trim. by rewrite trimEnd_empty, blank_trimStart. Qed.

Lemma blank_empty : ValidationSpec.blank EmptyString.
Proof. constructor. Qed.

(** [substring(0, n)] is the first [n] characters. *)
Lemma substring0_firstChars n s :
  substring0 n s = ValidationSpec.firstChars n s.
Proof.
  unfold substring0, ValidationSpec.firstChars. revert n.
  induction s as [|c s IH]; intros [|n]; simpl; try done.
  by rewrite IH.
Qed.

Lemma length_substring0 n s :
  String.length (substring0 n s) = n `min` String.length s.
Proof.
  unfold substring0. revert n.
  induction s as [|c s IH]; intros [|n]; simpl; try done.
  by rewrite IH.
Qed.

End string_facts.

(** ** Properties of validation *)

Section validation_facts.
Import Validation ValidationSpec.
Implicit Types (responses : gmap string (gmap nat string)).

Lemma isRanked_true rank : isRanked rank = true ↔ rank ≠ UNSET.
Proof.
  unfold isRanked, UNSET. simpl.
  rewrite andb_diag, negb_true_iff, bool_decide_eq_false. done.
Qed.

Lemma hasAnyRank_answered responses q :
  hasAnyRank (responses !! Question.id q) = true ↔ answered responses q.
Proof.
  unfold answered, getRank, hasAnyRank.
  destruct (responses !! Question.id q) as [o|]; simpl.
  - rewrite existsb_exists. unfold objectValues. split.
    + intros (rank & Hin & Hr). apply list_elem_of_In in Hin.
      apply list_elem_of_fmap in Hin as ([k v] & -> & Hin).
      apply elem_of_map_to_list in Hin.
      exists k, v. split; [done|]. by apply isRanked_true.
    + intros (k & rank & Hk & Hr). exists rank. split.
      * apply list_elem_of_In, list_elem_of_fmap. exists (k, rank).
        split; [done|]. by apply elem_of_map_to_list.
      * by apply isRanked_true.
  - split; [done|]. by intros (? & ? & ? & ?).
Qed.

Lemma questionMessage_spec idx q :
  QuestionError (Question.id q) idx (questionMessage idx q) = questionError idx q.
Proof.
  unfold questionError, questionMessage. by rewrite substring0_firstChars.
Qed.

(** The [forEach] loop, from any position and any array of errors so far. *)
Lemma foldl_checkQuestion responses qs : ∀ idx acc,
  ∃ errs,
    questionErrors responses idx qs errs
    ∧ foldl (checkQuestion responses) acc (imap (λ i x, (idx + i, x)) qs)
      = acc ++ errs.
Proof.
  induction qs as [|q qs IH]; intros idx acc.
  - exists []. split; [constructor|]. by rewrite app_nil_r.
  - cbn [imap foldl]. rewrite Nat.add_0_r.
    rewrite (imap_ext _ (λ i x, (S idx + i, x))).
    2:{ intros i x _. simpl. f_equal. lia. }
    unfold checkQuestion at 2.
    destruct (hasAnyRank (responses !! Question.id q)) eqn:Hq; cbn [negb].
    + destruct (IH (S idx) acc) as (errs & Herrs & ->).
      exists errs. split; [|done].
      apply questionErrors_answered; [|done]. by apply hasAnyRank_answered.
    + destruct (IH (S idx)
                  (acc ++ [QuestionError (Question.id q) idx (questionMessage idx q)]))
        as (errs & Herrs & ->).
      exists (questionError idx q :: errs). split.
      * apply questionErrors_unanswered; [|done].
        rewrite <-hasAnyRank_answered. by rewrite Hq.
      * rewrite questionMessage_spec. by rewrite <-app_assoc.
Qed.

(** The test [!finalComment || !finalComment.trim()]. *)
Lemma comment_test finalComment :
  negb (Js.toBoolean (Js.Str finalComment))
    || negb (Js.toBoolean (Js.Str (Js.trim finalComment))) = true
  ↔ blank finalComment.
Proof.
  rewrite orb_true_iff, !negb_true_iff.
  rewrite <-!not_true_iff_false, !toBoolean_Str.
  rewrite <-trim_empty. split.
  - intros [H|H].
    + destruct (decide (finalComment = EmptyString)) as [->|Hne]; [done|].
      by destruct H.
    + destruct (decide (Js.trim finalComment = EmptyString)) as [|Hne]; [done|].
      by destruct H.
  - intros H. right. intros Hne. by apply Hne.
Qed.

Lemma questionErrors_functional responses idx qs errs1 errs2 :
  questionErrors responses idx qs errs1 →
  questionErrors responses idx qs errs2 → errs1 = errs2.
Proof.
  intros H1. revert errs2.
  induction H1; intros errs2 H2; inversion H2; subst; try done.
  - by apply IHquestionErrors.
  - f_equal. by apply IHquestionErrors.
Qed.

End validation_facts.

(** ** Claims about validation *)

(** C3.  [validateForm] implements the completeness policy: [hasAnyRank]
    holds of a question iff some option of it holds a non-empty label (one
    option holding "No" is enough); the errors are the question-type errors of
    the unanswered questions, in question order, each carrying the first 50
    characters of the question text, followed by the final-comment error iff
    the comment is empty or white space only; and [isValid] holds iff there
    is no error. *)
Theorem validateForm_correct questions responses finalComment :
  let result := Validation.validateForm questions responses finalComment in
  (∀ q, Validation.hasAnyRank (responses !! Question.id q) = true
        ↔ ValidationSpec.answered responses q)
  ∧ (∀ optIdx, Validation.hasAnyRank (Some {[ optIdx := "No" ]}) = true)
  ∧ (∃ qErrs cErrs,
       ValidationSpec.questionErrors responses 0 questions qErrs
       ∧ ValidationSpec.commentErrors finalComment cErrs
       ∧ Validation.errors result = qErrs ++ cErrs)
  ∧ (Validation.isValid result = true ↔ Validation.errors result = []).
Proof.
  intros result. split_and!.
  - intros q. apply hasAnyRank_answered.
  - intros optIdx. simpl. unfold Validation.objectValues.
    by rewrite map_to_list_singleton.
  - destruct (foldl_checkQuestion responses questions 0 []) as (qErrs & Hq & Hfold).
    simpl in Hfold. subst result. unfold Validation.validateForm, Validation.entries.
    cbn [Validation.errors]. rewrite Hfold.
    destruct (negb _ || negb _) eqn:Hc.
    + exists qErrs, [Validation.FinalCommentError Validation.finalCommentMessage].
      split_and!; [done| |done]. left. split; [|done]. by apply comment_test.
    + exists qErrs, []. split_and!; [done| |by rewrite app_nil_r].
      right. split; [|done]. rewrite <-comment_test. by rewrite Hc.
  - subst result. unfold Validation.validateForm. cbn [Validation.isValid Validation.errors].
    rewrite Nat.eqb_eq. apply length_zero_iff_nil.
Qed.

(** ** Properties of normalization *)

Section normalization_facts.
Import Submission.
Implicit Types (responses : gmap string (gmap nat string)).

Lemma orNo_spec held :
  orNo held =
    match held with
    | Some rank => if decide (rank = UNSET) then "No" else rank
    | None => "No"
    end.
Proof.
  destruct held as [rank|]; [|done]. unfold orNo, UNSET.
  destruct (Js.toBoolean (Js.Str rank)) eqn:Hb.
  - apply toBoolean_Str in Hb. by rewrite decide_False.
  - apply not_true_iff_false in Hb. rewrite toBoolean_Str in Hb.
    rewrite decide_True; [done|]. by destruct (decide (rank = EmptyString)).
Qed.

Lemma orNo_set held : orNo held ≠ UNSET.
Proof.
  rewrite orNo_spec. destruct held as [rank|]; [|done]. by case_decide.
Qed.

(** The filling loop, from any index and any partial entry. *)
Lemma fill_loop_lookup (qData : gmap nat string) n :
  ∀ from (entry : gmap nat string) i,
  foldl (λ entry i, <[i := orNo (qData !! i)]> entry) entry (seq from n) !! i =
    if decide (from ≤ i < from + n) then Some (orNo (qData !! i)) else entry !! i.
Proof.
  induction n as [|n IH]; intros from entry i; cbn [seq foldl].
  - rewrite decide_False; [done|lia].
  - rewrite IH. destruct (decide (i = from)) as [->|Hne].
    + rewrite lookup_insert_eq. repeat case_decide; try done; lia.
    + rewrite lookup_insert_ne by done. repeat case_decide; try done; lia.
Qed.

Lemma fillEntry_lookup numOptions qData i :
  fillEntry numOptions qData !! i =
    if decide (i < numOptions) then Some (orNo (qData !! i)) else None.
Proof.
  unfold fillEntry. rewrite fill_loop_lookup, lookup_empty.
  repeat case_decide; try done; lia.
Qed.

Lemma questions_loop_fresh responses qs :
  ∀ (acc : gmap string (gmap nat string)) qId,
  qId ∉ Question.id <$> qs →
  foldl (λ acc q, <[Question.id q := entryOf responses q]> acc) acc qs !! qId
  = acc !! qId.
Proof.
  induction qs as [|q qs IH]; intros acc qId Hfresh; cbn [foldl]; [done|].
  rewrite fmap_cons, not_elem_of_cons in Hfresh. destruct Hfresh as [Hne Hfresh].
  rewrite IH by done. by rewrite lookup_insert_ne.
Qed.

Lemma questions_loop_member responses qs :
  ∀ (acc : gmap string (gmap nat string)) q,
  NoDup (Question.id <$> qs) → q ∈ qs →
  foldl (λ acc q, <[Question.id q := entryOf responses q]> acc) acc qs
    !! Question.id q
  = Some (entryOf responses q).
Proof.
  induction qs as [|q' qs IH]; intros acc q Hnd Hin.
  - by apply elem_of_nil in Hin.
  - cbn [foldl]. rewrite fmap_cons, NoDup_cons in Hnd. destruct Hnd as [Hq' Hnd].
    apply elem_of_cons in Hin as [->|Hin].
    + rewrite questions_loop_fresh by done. apply lookup_insert_eq.
    + by apply IH.
Qed.

Lemma questions_loop_origin responses qs :
  ∀ (acc : gmap string (gmap nat string)) qId entry,
  foldl (λ acc q, <[Question.id q := entryOf responses q]> acc) acc qs !! qId
    = Some entry →
  acc !! qId = Some entry ∨ ∃ q, q ∈ qs ∧ entry = entryOf responses q.
Proof.
  induction qs as [|q qs IH]; intros acc qId entry Hl; cbn [foldl] in Hl.
  - by left.
  - apply IH in Hl as [Hl|(q' & Hin & ->)].
    + destruct (decide (Question.id q = qId)) as [<-|Hne].
      * rewrite lookup_insert_eq in Hl. simplify_eq.
        right. exists q. split; [left|done].
      * rewrite lookup_insert_ne in Hl by done. by left.
    + right. exists q'. split; [by right|done].
Qed.

End normalization_facts.

(** ** Claims about normalization *)

(** C4.  With question identifiers unique (the data model), the payload of
    [normalizeFormData] has, for every question and every option index below
    the number of its options, an entry holding the label of the assignment
    when that is non-empty and "No" otherwise; no entry of the payload holds
    the empty label; [otherText] and [finalComment] are passed through. *)
Theorem normalizeFormData_total_coverage
    now questions responses otherText finalComment :
  NoDup (Question.id <$> questions) →
  let payload :=
    Submission.normalizeFormData now questions responses otherText finalComment in
  (∀ q optIdx,
     q ∈ questions → optIdx < length (Question.options q) →
     getRank (Submission.responses payload) (Question.id q) optIdx =
       Some (match getRank responses (Question.id q) optIdx with
             | Some rank => if decide (rank = UNSET) then "No" else rank
             | None => "No"
             end))
  ∧ (∀ qId optIdx rank,
       getRank (Submission.responses payload) qId optIdx = Some rank →
       rank ≠ UNSET)
  ∧ Submission.otherText payload = otherText
  ∧ Submission.finalComment payload = finalComment.
Proof.
  intros Hnd payload. subst payload. unfold Submission.normalizeFormData.
  cbn [Submission.responses Submission.otherText Submission.finalComment].
  split_and!; [| |done|done].
  - intros q optIdx Hin Hlt. unfold getRank at 1.
    rewrite (questions_loop_member responses questions ∅ q Hnd Hin). simpl.
    unfold Submission.entryOf. rewrite fillEntry_lookup, decide_True by done.
    by rewrite orNo_spec, getRank_default.
  - intros qId optIdx rank Hr. unfold getRank in Hr.
    destruct (foldl _ _ _ !! qId) as [entry|] eqn:Hentry; [|done]. simpl in Hr.
    apply (questions_loop_origin responses) in Hentry as [Hentry|(q & _ & ->)].
    + by rewrite lookup_empty in Hentry.
    + unfold Submission.entryOf in Hr. rewrite fillEntry_lookup in Hr.
      case_decide; [|done]. simplify_eq. apply orNo_set.
Qed.

Lemma normalizeFormData_total_coverage_witness :
  let q1 := Question.mk "q1" "Which?" None ["A"; "B"] in
  let payload :=
    Submission.normalizeFormData "2025-12-11T00:00:00.000Z" [q1]
      (Ranking.updateRank "q1" 0 "1" ∅) ∅ "fine" in
  getRank (Submission.responses payload) "q1" 0 = Some "1"
  ∧ getRank (Submission.responses payload) "q1" 1 = Some "No".
Proof.
  intros q1 payload.
  assert (NoDup (Question.id <$> [q1])) as Hnd.
  { apply NoDup_cons. split; [apply not_elem_of_nil|apply NoDup_nil_2]. }
  destruct (normalizeFormData_total_coverage
              "2025-12-11T00:00:00.000Z" [q1]
              (Ranking.updateRank "q1" 0 "1" ∅) ∅ "fine" Hnd) as (Hcover & _).
  assert (q1 ∈ [q1]) as Hin by (left).
  split.
  - apply (Hcover q1 0 Hin). simpl. lia.
  - apply (Hcover q1 1 Hin). simpl. lia.
Defined.

(** ** Properties of the sanitizer *)

Section sanitizer_facts.
Import Js Sanitization SanitizationSpec.

Lemma length_replaceAllFrom alternatives s : ∀ skip,
  String.length (replaceAllFrom alternatives skip s) ≤ String.length s.
Proof.
  induction s as [|c s IH]; intros skip; simpl; [done|].
  destruct skip as [|skip].
  - destruct (matchAlternation alternatives (String c s)) as [[|n]|]; simpl.
    + specialize (IH 0). lia.
    + specialize (IH n). lia.
    + specialize (IH 0). lia.
  - specialize (IH skip). lia.
Qed.

Lemma length_slice0 s end_ :
  (0 ≤ end_)%Z → (Z.of_nat (String.length (slice0 s end_)) ≤ end_)%Z.
Proof.
  intros Hend. unfold slice0. rewrite length_substring0.
  destruct (end_ <? 0)%Z eqn:Hneg; lia.
Qed.

(** Skipping over a matched occurrence. *)
Lemma replaceAllFrom_skip alternatives occ rest :
  replaceAllFrom alternatives (String.length occ) (occ +:+ rest)
  = replaceAll alternatives rest.
Proof.
  induction occ as [|c occ IH]; simpl; [|done].
  unfold replaceAll. by destruct rest.
Qed.

Lemma matchLiteral_Some pattern : ∀ s n,
  matchLiteral pattern s = Some n →
  n = String.length pattern
  ∧ ∃ occ rest, s = occ +:+ rest ∧ equalIgnoreCase pattern occ
                ∧ String.length occ = n.
Proof.
  unfold equalIgnoreCase, chars.
  induction pattern as [|p pattern IH]; intros s n Hm; simpl in Hm.
  - simplify_eq. split; [done|]. by exists EmptyString, s.
  - destruct s as [|c s]; [done|]. case_bool_decide as Hc; [|done].
    destruct (matchLiteral pattern s) as [n'|] eqn:Hm'; [|done].
    simpl in Hm. simplify_eq.
    destruct (IH s n' Hm') as (-> & occ & rest & -> & Heq & Hlen).
    split; [done|]. exists (String c occ), rest.
    split_and!; [done| |by cbn; rewrite Hlen].
    cbn [String.list_ascii_of_string]. by rewrite !fmap_cons, Hc, Heq.
Qed.

Lemma matchLiteral_complete pattern : ∀ occ rest,
  equalIgnoreCase pattern occ →
  matchLiteral pattern (occ +:+ rest) = Some (String.length pattern).
Proof.
  unfold equalIgnoreCase, chars.
  induction pattern as [|p pattern IH]; intros occ rest Heq; simpl; [done|].
  destruct occ as [|c occ]; [done|].
  cbn [String.list_ascii_of_string] in Heq. rewrite !fmap_cons in Heq.
  injection Heq as Hc Heq.
  change (String c occ +:+ rest) with (String c (occ +:+ rest)).
  cbn [matchLiteral]. rewrite bool_decide_eq_true_2 by done.
  by rewrite (IH occ rest Heq).
Qed.

Lemma matchAlternation_Some alternatives s n :
  matchAlternation alternatives s = Some n →
  ∃ pattern, pattern ∈ alternatives ∧ matchLiteral pattern s = Some n.
Proof.
  induction alternatives as [|pattern rest IH]; simpl; [done|].
  destruct (matchLiteral pattern s) as [n'|] eqn:Hm.
  - intros ?; simplify_eq. exists pattern. split; [left|done].
  - intros Hrest. destruct (IH Hrest) as (pattern' & Hin & Hm').
    exists pattern'. split; [by right|done].
Qed.

Lemma matchAlternation_None alternatives s pattern :
  matchAlternation alternatives s = None →
  pattern ∈ alternatives → matchLiteral pattern s = None.
Proof.
  induction alternatives as [|pattern' rest IH]; simpl.
  - intros _ Hin. by apply elem_of_nil in Hin.
  - destruct (matchLiteral pattern' s) eqn:Hm; [done|].
    intros Hrest Hin. apply elem_of_cons in Hin as [->|Hin]; [done|].
    by apply IH.
Qed.

Lemma dangerousPatterns_nonempty pattern :
  pattern ∈ dangerousPatterns → 0 < String.length pattern.
Proof.
  unfold dangerousPatterns. rewrite !elem_of_cons, elem_of_nil.
  intros [->|[->|[->|[->|[]]]]]; simpl; lia.
Qed.

Lemma length_app_string (s t : string) :
  String.length (s +:+ t) = String.length s + String.length t.
Proof. induction s as [|c s IH]; simpl; [done|]. by rewrite IH. Qed.

(** The scan of [replaceAll] deletes exactly what [deletes] describes. *)
Lemma replaceAll_deletes s : deletes s (replaceAll dangerousPatterns s).
Proof.
  remember (String.length s) as n eqn:Hn.
  revert s Hn. induction (lt_wf n) as [n _ IH]. intros s ->.
  destruct s as [|c s]; [constructor|].
  unfold replaceAll. cbn [replaceAllFrom].
  destruct (matchAlternation dangerousPatterns (String c s)) as [k|] eqn:Hm.
  - apply matchAlternation_Some in Hm as (pattern & Hin & Hm).
    apply matchLiteral_Some in Hm as (-> & occ & rest & Hs & Heq & Hlen).
    pose proof (dangerousPatterns_nonempty _ Hin) as Hpos.
    destruct occ as [|c' occ]; simpl in Hlen; [lia|].
    simpl in Hs. injection Hs as <- ->.
    rewrite <-Hlen. rewrite replaceAllFrom_skip.
    apply (deletes_occurrence pattern (String c occ) rest); [done|done|].
    apply (IH (String.length rest)); [|done].
    simpl. rewrite length_app_string. lia.
  - apply deletes_keep.
    + intros (pattern & occ & rest & Hin & Heq & Hs).
      pose proof (matchAlternation_None _ _ _ Hm Hin) as Hnone.
      rewrite Hs, (matchLiteral_complete pattern occ rest Heq) in Hnone. done.
    + apply (IH (String.length s)); [simpl; lia|done].
Qed.

(** Where no dangerous pattern occurs, nothing is deleted. *)
Lemma replaceAll_clean s :
  (∀ pattern, pattern ∈ dangerousPatterns → includesIgnoreCase s pattern = false) →
  replaceAll dangerousPatterns s = s.
Proof.
  unfold replaceAll. induction s as [|c s IH]; intros Hclean; [done|].
  cbn [replaceAllFrom].
  destruct (matchAlternation dangerousPatterns (String c s)) as [k|] eqn:Hm.
  - apply matchAlternation_Some in Hm as (pattern & Hin & Hm).
    specialize (Hclean pattern Hin). cbn [includesIgnoreCase] in Hclean.
    rewrite Hm in Hclean. by rewrite bool_decide_eq_true_2 in Hclean.
  - f_equal. apply IH. intros pattern Hin. specialize (Hclean pattern Hin).
    cbn [includesIgnoreCase] in Hclean. by apply orb_false_iff in Hclean as [_ ?].
Qed.

Lemma append_cons c (s t : string) : String c s +:+ t = String c (s +:+ t).
Proof. reflexivity. Qed.

Lemma append_nil_l (t : string) : EmptyString +:+ t = t.
Proof. reflexivity. Qed.

(** Push [+:+] under the constructors of its first argument. *)
Ltac append_norm :=
  repeat first [rewrite append_cons in * | rewrite append_nil_l in *].

Lemma trimStart_spec s :
  ∃ pre, Forall (λ c, isWhiteSpace c = true) (chars pre)
         ∧ s = pre +:+ trimStart s.
Proof.
  unfold chars. induction s as [|c s (pre & Hpre & Hs)]; simpl.
  - exists EmptyString. by split; [constructor|].
  - destruct (isWhiteSpace c) eqn:Hc.
    + exists (String c pre). split; [by constructor|].
      rewrite append_cons. by f_equal.
    + exists EmptyString. by split; [constructor|].
Qed.

Lemma trimStart_head s c t :
  trimStart s = String c t → isWhiteSpace c = false.
Proof.
  induction s as [|a s IH]; simpl; [done|].
  destruct (isWhiteSpace a) eqn:Ha; [done|]. intros ?; by simplify_eq.
Qed.

Lemma trimEnd_spec t :
  ∃ post, Forall (λ c, isWhiteSpace c = true) (chars post)
          ∧ t = trimEnd t +:+ post.
Proof.
  unfold chars. induction t as [|c t (post & Hpost & Ht)]; cbn [trimEnd].
  - exists EmptyString. by split; [constructor|].
  - destruct (trimEnd t) as [|a u].
    + change (EmptyString +:+ post) with post in Ht. subst post.
      destruct (isWhiteSpace c) eqn:Hc.
      * exists (String c t). by split; [constructor|].
      * by exists t.
    + exists post. split; [done|]. rewrite append_cons. by f_equal.
Qed.

Lemma app_singleton_inv t' (c a : ascii) :
  t' +:+ String c EmptyString = String a EmptyString → t' = EmptyString ∧ c = a.
Proof.
  destruct t' as [|b [|b' t']]; append_norm; intros ?; by simplify_eq.
Qed.

Lemma trimEnd_last t : ∀ t' c,
  trimEnd t = t' +:+ String c EmptyString → isWhiteSpace c = false.
Proof.
  induction t as [|a t IH]; intros t' c; cbn [trimEnd].
  - destruct t'; append_norm; done.
  - destruct (trimEnd t) as [|b u] eqn:Hu.
    + destruct (isWhiteSpace a) eqn:Ha; [destruct t'; append_norm; done|].
      intros Heq. symmetry in Heq. apply app_singleton_inv in Heq as [_ ->]. done.
    + destruct t' as [|a' t'']; append_norm; intros ?; simplify_eq.
      by apply (IH t'' c).
Qed.

Lemma trimEnd_head c t :
  isWhiteSpace c = false → ∃ u, trimEnd (String c t) = String c u.
Proof.
  intros Hc. simpl. destruct (trimEnd t) as [|b u]; rewrite ?Hc; eauto.
Qed.

(** [trim] removes the white space at both ends and nothing else. *)
Lemma trim_trims s : trims s (trim s).
Proof.
  unfold trims, trim.
  destruct (trimStart_spec s) as (pre & Hpre & Hs).
  destruct (trimEnd_spec (trimStart s)) as (post & Hpost & Ht).
  exists pre, post. split_and!; [done|done|by rewrite <-Ht|].
  split; [|apply trimEnd_last].
  intros c t' Heq. destruct (trimStart s) as [|a r] eqn:Hr; [done|].
  pose proof (trimStart_head _ _ _ Hr) as Ha.
  destruct (trimEnd_head a r Ha) as (u & Hu).
  rewrite Hu in Heq. by simplify_eq.
Qed.

Lemma substring0_min n s :
  substring0 (n `min` String.length s) s = substring0 n s.
Proof.
  unfold substring0. revert n.
  induction s as [|c s IH]; intros [|n]; simpl; try done.
  by rewrite IH.
Qed.

(** For a non-negative bound [slice(0, maxLength)] keeps the first
    [maxLength] code units. *)
Lemma slice0_truncate s end_ :
  (0 ≤ end_)%Z → slice0 s end_ = truncate (Z.to_nat end_) s.
Proof.
  intros Hend. unfold slice0.
  destruct (end_ <? 0)%Z eqn:Hneg; [lia|].
  rewrite Z2Nat.inj_min, Nat2Z.id, substring0_min.
  apply substring0_firstChars.
Qed.

Lemma sanitizeTextInput_Str s maxLength :
  sanitizeTextInput (Str s) maxLength =
    Normal (replaceAll dangerousPatterns
              (slice0 (trim s) (default MAX_TEXT_LENGTH maxLength))).
Proof.
  unfold sanitizeTextInput. cbn [isString negb orb callTrim bind].
  rewrite orb_false_r.
  destruct (toBoolean (Str s)) eqn:Hb; [done|].
  apply not_true_iff_false in Hb. rewrite toBoolean_Str in Hb.
  destruct (decide (s = EmptyString)) as [->|]; [|done].
  simpl. unfold slice0. simpl. by destruct (Z.to_nat _).
Qed.

Lemma sanitizeTextInput_not_string text maxLength :
  isString text = false → sanitizeTextInput text maxLength = Normal EmptyString.
Proof.
  intros Hs. unfold sanitizeTextInput. rewrite Hs. by rewrite orb_true_r.
Qed.

End sanitizer_facts.

(** ** Claims about the sanitizer *)

(** C8.  [sanitizeTextInput] never throws; a non-string or absent input
    yields the empty string; on a string it trims the surrounding white
    space, cuts the result to [maxLength] code units (5000 by default, 10000
    for comments) and deletes, in one pass from the left and ignoring case,
    the occurrences of [<script], [<iframe], [javascript:] and [onerror=];
    the result is never longer than a non-negative [maxLength]; and the four
    examples evaluate as stated. *)
Theorem sanitizeTextInput_correct :
  (∀ text maxLength, ∃ clean,
     Sanitization.sanitizeTextInput text maxLength = Js.Normal clean)
  ∧ (∀ text maxLength,
       Js.isString text = false →
       Sanitization.sanitizeTextInput text maxLength = Js.Normal EmptyString)
  ∧ (∀ s maxLength, ∃ trimmedText clean,
       let bound := default Sanitization.MAX_TEXT_LENGTH maxLength in
       Sanitization.sanitizeTextInput (Js.Str s) maxLength = Js.Normal clean
       ∧ SanitizationSpec.trims s trimmedText
       ∧ SanitizationSpec.deletes (Js.slice0 trimmedText bound) clean
       ∧ ((0 ≤ bound)%Z →
            Js.slice0 trimmedText bound
              = SanitizationSpec.truncate (Z.to_nat bound) trimmedText
            ∧ (Z.of_nat (String.length clean) ≤ bound)%Z))
  ∧ (Sanitization.MAX_TEXT_LENGTH = 5000%Z
     ∧ ∀ text, Sanitization.sanitizeCommentInput text
               = Sanitization.sanitizeTextInput text (Some 10000%Z))
  ∧ (∃ clean,
       Sanitization.sanitizeTextInput
         (Js.Str "<script>alert(1)</script>hello") None = Js.Normal clean
       ∧ Js.includes clean "<script" = false)
  ∧ Sanitization.sanitizeTextInput Js.Null None = Js.Normal EmptyString
  ∧ (∃ clean,
       Sanitization.sanitizeTextInput
         (Js.Str (Js.repeat "a" 10000)) (Some 5000%Z) = Js.Normal clean
       ∧ String.length clean = 5000)
  ∧ Sanitization.sanitizeTextInput (Js.Str "  hi  ") None = Js.Normal "hi".
Proof.
  split_and!.
  - intros text maxLength. destruct (Js.isString text) eqn:Hs.
    + destruct text; try done. eexists. apply sanitizeTextInput_Str.
    + exists EmptyString. by apply sanitizeTextInput_not_string.
  - apply sanitizeTextInput_not_string.
  - intros s maxLength. eexists (Js.trim s), _. intros bound.
    split_and!.
    + apply sanitizeTextInput_Str.
    + apply trim_trims.
    + apply replaceAll_deletes.
    + intros Hb. split; [by apply slice0_truncate|].
      etrans; [|by apply (length_slice0 (Js.trim s))].
      apply inj_le, length_replaceAllFrom.
  - done.
  - done.
  - eexists. split; [vm_compute; reflexivity|]. vm_compute. reflexivity.
  - reflexivity.
  - eexists. split; vm_compute; reflexivity.
  - vm_compute. reflexivity.
Qed.

Lemma sanitizeTextInput_correct_witness :
  Sanitization.sanitizeTextInput Js.Undefined (Some 5000%Z) = Js.Normal EmptyString
  ∧ ∃ clean,
      Sanitization.sanitizeTextInput (Js.Str "  hi  ") (Some 3%Z) = Js.Normal clean
      ∧ (Z.of_nat (String.length clean) ≤ 3)%Z.
Proof.
  destruct sanitizeTextInput_correct as (_ & Hother & Hstring & _).
  split.
  - apply Hother. reflexivity.
  - destruct (Hstring "  hi  " (Some 3%Z)) as (trimmedText & clean & Hrun & _ & _ & Hlen).
    exists clean. split; [exact Hrun|]. apply Hlen. simpl. lia.
Defined.

(** C10.  The deletion is a single pass: the output can contain a dangerous
    pattern again.  On the input [<scr<scriptipt] the inner [<script] is
    deleted and the fragments around it join into [<script], which is the
    output. *)
Theorem sanitizeTextInput_single_pass :
  Sanitization.sanitizeTextInput (Js.Str "<scr<scriptipt") None
    = Js.Normal "<script"
  ∧ ∃ s clean pattern,
      Sanitization.sanitizeTextInput (Js.Str s) None = Js.Normal clean
      ∧ pattern ∈ Sanitization.dangerousPatterns
      ∧ Js.includes clean pattern = true.
Proof.
  split; [vm_compute; reflexivity|].
  exists "<scr<scriptipt", "<script", "<script". split_and!.
  - vm_compute. reflexivity.
  - left.
  - vm_compute. reflexivity.
Qed.

(** ** Properties of the retry loop *)

Section submit_facts.
Import Js Submission.
Variable fetch : nat → FetchOutcome.
Variable data : Payload.
Variable scriptUrl : string.
Variable opts : Options.

Abbreviation loop := (attemptLoop fetch data scriptUrl opts).
Abbreviation handler := (catchBlock opts).

Lemma attemptLoop_rejected remaining attempt lastError error :
  fetch attempt = Rejected error →
  loop (S remaining) attempt lastError =
    (EvFetch attempt scriptUrl data :: handler attempt error
       ++ (loop remaining (S attempt) (Some error)).1,
     (loop remaining (S attempt) (Some error)).2).
Proof.
  intros Hf. cbn [attemptLoop]. rewrite Hf.
  by destruct (loop remaining (S attempt) (Some error)).
Qed.

Lemma attemptLoop_resolved remaining attempt lastError :
  fetch attempt = Resolved →
  loop (S remaining) attempt lastError =
    ([EvFetch attempt scriptUrl data], Normal SuccessTrue).
Proof. intros Hf. cbn [attemptLoop]. by rewrite Hf. Qed.

(** An iteration of the loop starts with the request. *)
Lemma attemptLoop_head remaining attempt lastError :
  ∃ rest, (loop (S remaining) attempt lastError).1
          = EvFetch attempt scriptUrl data :: rest.
Proof.
  destruct (fetch attempt) as [|error] eqn:Hf.
  - rewrite attemptLoop_resolved by done. by eexists.
  - rewrite (attemptLoop_rejected _ _ _ error) by done. by eexists.
Qed.

Lemma catchBlock_not_last attempt error :
  attempt ≠ maxRetries opts → onRetry opts = true →
  handler attempt error =
    [EvOnRetry attempt (errorMessage opts error)
       (initialRetryDelay opts * Z.of_nat attempt);
     EvDelay (initialRetryDelay opts * Z.of_nat attempt)].
Proof.
  intros Hne Hcb. unfold catchBlock.
  apply Nat.eqb_neq in Hne. by rewrite Hne, Hcb.
Qed.

Lemma catchBlock_last error :
  onRetry opts = true →
  handler (maxRetries opts) error =
    [EvOnRetry (maxRetries opts) (errorMessage opts error) 0].
Proof. intros Hcb. unfold catchBlock. by rewrite Nat.eqb_refl, Hcb. Qed.

Lemma catchBlock_projections errorAt attempt :
  fetchAttempts (handler attempt (errorAt attempt)) = []
  ∧ onRetryCalls (handler attempt (errorAt attempt)) =
      (if onRetry opts then [retryCall opts errorAt attempt] else []).
Proof.
  unfold catchBlock, retryCall.
  destruct (attempt =? maxRetries opts), (onRetry opts); done.
Qed.

Lemma fetchAttempts_fetch attempt url body trace :
  fetchAttempts (EvFetch attempt url body :: trace) = attempt :: fetchAttempts trace.
Proof. reflexivity. Qed.

Lemma fetchAttempts_app trace1 trace2 :
  fetchAttempts (trace1 ++ trace2) = fetchAttempts trace1 ++ fetchAttempts trace2.
Proof. apply omap_app. Qed.

Lemma onRetryCalls_fetch attempt url body trace :
  onRetryCalls (EvFetch attempt url body :: trace) = onRetryCalls trace.
Proof. reflexivity. Qed.

Lemma onRetryCalls_app trace1 trace2 :
  onRetryCalls (trace1 ++ trace2) = onRetryCalls trace1 ++ onRetryCalls trace2.
Proof. apply omap_app. Qed.

(** Backoff: when the attempts up to [k] fail and [k] is not the last one,
    the trace passes through request [k], the call of [onRetry] with the
    delay [initialRetryDelay * k], the wait of that length and request
    [k + 1]. *)
Lemma attemptLoop_backoff errorAt k remaining : ∀ attempt lastError,
  onRetry opts = true →
  attempt + remaining = S (maxRetries opts) →
  attempt ≤ k < maxRetries opts →
  (∀ j, attempt ≤ j ≤ k → fetch j = Rejected (errorAt j)) →
  ∃ pre post,
    (loop remaining attempt lastError).1 =
      pre ++ [EvFetch k scriptUrl data;
              EvOnRetry k (errorMessage opts (errorAt k))
                (initialRetryDelay opts * Z.of_nat k);
              EvDelay (initialRetryDelay opts * Z.of_nat k);
              EvFetch (S k) scriptUrl data] ++ post.
Proof.
  induction remaining as [|remaining IH]; intros attempt lastError Hcb Hsum Hk Hfail;
    [lia|].
  rewrite (attemptLoop_rejected _ _ _ (errorAt attempt)) by (apply Hfail; lia).
  cbn [fst]. destruct (decide (attempt = k)) as [->|Hne].
  - rewrite catchBlock_not_last by (done || lia).
    destruct remaining as [|remaining]; [lia|].
    destruct (attemptLoop_head remaining (S k) (Some (errorAt k))) as (post & ->).
    by exists [], post.
  - destruct (IH (S attempt) (Some (errorAt attempt))) as (pre & post & ->);
      [done|lia|lia|intros; apply Hfail; lia|].
    exists (EvFetch attempt scriptUrl data :: handler attempt (errorAt attempt) ++ pre), post.
    by rewrite !(app_comm_cons _ _ (EvFetch attempt scriptUrl data)), !app_assoc.
Qed.

(** Exhaustion: when every remaining attempt fails, each is made once, in
    order, [onRetry] is told of each, and the loop leaves with the aggregate
    error built from the last failure. *)
Lemma attemptLoop_exhausted errorAt remaining : ∀ attempt lastError,
  attempt + remaining = S (maxRetries opts) →
  (∀ j, attempt ≤ j ≤ maxRetries opts → fetch j = Rejected (errorAt j)) →
  let run := loop remaining attempt lastError in
  fetchAttempts run.1 = seq attempt remaining
  ∧ onRetryCalls run.1 =
      (if onRetry opts then retryCall opts errorAt <$> seq attempt remaining else [])
  ∧ run.2 = Throw (exhaustedMessage opts
                     (match remaining with
                      | 0 => lastError
                      | S _ => Some (errorAt (maxRetries opts))
                      end))
  ∧ (0 < remaining → onRetry opts = true →
     ∃ pre, run.1 = pre ++ [EvFetch (maxRetries opts) scriptUrl data;
                            EvOnRetry (maxRetries opts)
                              (errorMessage opts (errorAt (maxRetries opts))) 0]).
Proof.
  induction remaining as [|remaining IH]; intros attempt lastError Hsum Hfail run.
  - subst run. cbn. split_and!; try done; [by destruct (onRetry opts)|lia].
  - subst run.
    rewrite (attemptLoop_rejected _ _ _ (errorAt attempt)) by (apply Hfail; lia).
    cbn [fst snd].
    destruct (IH (S attempt) (Some (errorAt attempt))) as (Hf & Hr & Hout & Hend);
      [lia|intros; apply Hfail; lia|].
    destruct (catchBlock_projections errorAt attempt) as [Hcf Hcr].
    split_and!.
    + rewrite fetchAttempts_fetch, fetchAttempts_app, Hcf, Hf. done.
    + rewrite onRetryCalls_fetch, onRetryCalls_app, Hcr, Hr.
      by destruct (onRetry opts).
    + rewrite Hout. destruct remaining as [|remaining]; [|done].
      by assert (attempt = maxRetries opts) as -> by lia.
    + intros _ Hcb. destruct remaining as [|remaining].
      * assert (attempt = maxRetries opts) as -> by lia.
        rewrite catchBlock_last by done. cbn. by exists [].
      * destruct Hend as (pre & ->); [lia|done|].
        exists (EvFetch attempt scriptUrl data :: handler attempt (errorAt attempt) ++ pre).
        by rewrite !(app_comm_cons _ _ (EvFetch attempt scriptUrl data)), !app_assoc.
Qed.

End submit_facts.

(** ** Claims about delivery *)

(** C5.  With the endpoint undefined or empty [submitForm] throws the
    configuration error at once: the trace is empty, so there is no request,
    no call of [onRetry] and no wait, whatever the payload, the options and
    the transport. *)
Theorem submitForm_unconfigured fetch data opts :
  Submission.submitForm fetch data None opts
    = ([], Js.Throw Submission.configurationError)
  ∧ Submission.submitForm fetch data (Some EmptyString) opts
    = ([], Js.Throw Submission.configurationError).
Proof. split; reflexivity. Qed.

(** C6.  The backoff is linear.  When the attempts up to [k] fail and
    [k < maxRetries], the trace has request [k], then [onRetry] called with
    [k], the classified error and the delay [initialRetryDelay * k], then the
    wait of that length, then request [k + 1].  With [maxRetries = 3] and
    [initialRetryDelay = 1000], a transport that fails at attempts 1 and 2
    and succeeds at attempt 3 makes [onRetry] be called exactly twice, with
    delays 1000 and 2000, and [submitForm] resolves. *)
Theorem submitForm_linear_backoff :
  (∀ fetch data url opts errorAt k,
     url ≠ EmptyString → Submission.onRetry opts = true →
     1 ≤ k < Submission.maxRetries opts →
     (∀ j, 1 ≤ j ≤ k → fetch j = Submission.Rejected (errorAt j)) →
     ∃ pre post,
       (Submission.submitForm fetch data (Some url) opts).1 =
         pre ++ [Submission.EvFetch k url data;
                 Submission.EvOnRetry k
                   (Submission.errorMessage opts (errorAt k))
                   (Submission.initialRetryDelay opts * Z.of_nat k);
                 Submission.EvDelay (Submission.initialRetryDelay opts * Z.of_nat k);
                 Submission.EvFetch (S k) url data] ++ post)
  ∧ (∀ fetch data url timeout e1 e2,
       url ≠ EmptyString →
       fetch 1 = Submission.Rejected e1 →
       fetch 2 = Submission.Rejected e2 →
       fetch 3 = Submission.Resolved →
       let opts := Submission.mkOptions 3 timeout 1000 true in
       let run := Submission.submitForm fetch data (Some url) opts in
       Submission.onRetryCalls run.1 =
         [(1, Submission.errorMessage opts e1, 1000%Z);
          (2, Submission.errorMessage opts e2, 2000%Z)]
       ∧ Submission.delays run.1 = [1000%Z; 2000%Z]
       ∧ Submission.fetchAttempts run.1 = [1; 2; 3]
       ∧ run.2 = Js.Normal Submission.SuccessTrue).
Proof.
  split.
  - intros fetch data url opts errorAt k Hurl Hcb Hk Hfail.
    unfold Submission.submitForm.
    apply toBoolean_Str in Hurl. rewrite Hurl. cbn [negb].
    apply (attemptLoop_backoff fetch data url opts errorAt); (done || lia).
  - intros fetch data url timeout e1 e2 Hurl H1 H2 H3 opts run.
    subst run. unfold Submission.submitForm.
    apply toBoolean_Str in Hurl. rewrite Hurl. cbn [negb].
    cbn [Submission.maxRetries opts].
    rewrite (attemptLoop_rejected _ _ _ _ _ _ _ e1) by done.
    rewrite (attemptLoop_rejected _ _ _ _ _ _ _ e2) by done.
    rewrite attemptLoop_resolved by done.
    done.
Qed.

Lemma submitForm_linear_backoff_witness :
  let fetch := λ attempt,
    match attempt with
    | 1 | 2 => Submission.Rejected
                 (Submission.mkFetchError "TypeError" true "Failed to fetch")
    | _ => Submission.Resolved
    end in
  let data := Submission.normalizeFormData "2025-12-11T00:00:00.000Z" [] ∅ ∅ "fine" in
  let run := Submission.submitForm fetch data (Some "https://example.org/exec")
               (Submission.mkOptions 3 5000 1000 true) in
  Submission.onRetryCalls run.1 =
    [(1, "Network error - unable to reach server", 1000%Z);
     (2, "Network error - unable to reach server", 2000%Z)]
  ∧ run.2 = Js.Normal Submission.SuccessTrue.
Proof.
  intros fetch data run.
  destruct submitForm_linear_backoff as [_ Hexample].
  destruct (Hexample fetch data "https://example.org/exec" 5000%Z
              (Submission.mkFetchError "TypeError" true "Failed to fetch")
              (Submission.mkFetchError "TypeError" true "Failed to fetch"))
    as (Hcalls & _ & _ & Hout); try reflexivity; [done|].
  split; [exact Hcalls|exact Hout].
Defined.

(** C7.  When every attempt fails (and there is at least one), [submitForm]
    makes the attempts 1..maxRetries and no other, tells [onRetry] of the last
    one with delay 0 as the last thing it does, and throws one aggregate
    error, whose message names [maxRetries] and ends with the message of the
    last failure (or with "Unknown error" when that message is empty). *)
Theorem submitForm_exhaustion fetch data url opts errorAt :
  url ≠ EmptyString →
  1 ≤ Submission.maxRetries opts →
  Submission.onRetry opts = true →
  (∀ j, 1 ≤ j ≤ Submission.maxRetries opts →
        fetch j = Submission.Rejected (errorAt j)) →
  let run := Submission.submitForm fetch data (Some url) opts in
  let n := Submission.maxRetries opts in
  let lastFailure := Submission.message (errorAt n) in
  Submission.fetchAttempts run.1 = seq 1 n
  ∧ (∃ pre, run.1 = pre ++ [Submission.EvFetch n url data;
                             Submission.EvOnRetry n
                               (Submission.errorMessage opts (errorAt n)) 0])
  ∧ (∃ tail,
       run.2 = Js.Throw ("Form submission failed after " +:+ pretty n
                           +:+ " attempts: " +:+ tail)
       ∧ (tail = lastFailure
          ∨ (lastFailure = EmptyString ∧ tail = "Unknown error"))).
Proof.
  intros Hurl Hn Hcb Hfail run n lastFailure. subst run.
  unfold Submission.submitForm.
  apply toBoolean_Str in Hurl. rewrite Hurl. cbn [negb].
  destruct (attemptLoop_exhausted fetch data url opts errorAt
              (Submission.maxRetries opts) 1 None)
    as (Hattempts & _ & Hout & Hend); [lia|done|].
  split_and!.
  - exact Hattempts.
  - apply Hend; [lia|done].
  - rewrite Hout. subst n lastFailure.
    unfold Submission.exhaustedMessage, Submission.lastMessage.
    destruct (Submission.maxRetries opts) as [|n'] eqn:Hn'; [lia|].
    destruct (Js.toBoolean (Js.Str (Submission.message (errorAt (S n'))))) eqn:Hb.
    + eexists. split; [done|by left].
    + exists "Unknown error". split; [done|]. right. split; [|done].
      apply not_true_iff_false in Hb. rewrite toBoolean_Str in Hb.
      by destruct (decide (Submission.message (errorAt (S n')) = EmptyString)).
Qed.

Lemma submitForm_exhaustion_witness :
  let fetch := λ _ : nat,
    Submission.Rejected (Submission.mkFetchError "Error" false "boom") in
  let data := Submission.normalizeFormData "2025-12-11T00:00:00.000Z" [] ∅ ∅ "fine" in
  let run := Submission.submitForm fetch data (Some "https://example.org/exec")
               (Submission.mkOptions 3 5000 1000 true) in
  Submission.fetchAttempts run.1 = [1; 2; 3]
  ∧ run.2 = Js.Throw "Form submission failed after 3 attempts: boom".
Proof.
  intros fetch data run.
  destruct (submitForm_exhaustion fetch data "https://example.org/exec"
              (Submission.mkOptions 3 5000 1000 true)
              (λ _, Submission.mkFetchError "Error" false "boom"))
    as (Hattempts & _ & _); [done|simpl; lia|done|done|].
  split; [exact Hattempts|vm_compute; reflexivity].
Defined.


(** * Further properties of the code *)

(** ** The rank store *)

(** X1.  [updateRank] touches the entry of its own question only: with that
    entry removed the state is what it was, and afterwards the question has
    an entry whatever the state was before. *)
Theorem updateRank_touches_one_question qId optIdx rank
    (s : gmap string (gmap nat string)) :
  delete qId (Ranking.updateRank qId optIdx rank s) = delete qId s
  ∧ dom (Ranking.updateRank qId optIdx rank s) = {[qId]} ∪ dom s.
Proof.
  rewrite updateRank_insert. split.
  - apply delete_insert_eq.
  - apply dom_insert_L.
Qed.

(** X2.  What [updateRank] does to the options of its question: the target
    option holds the new label; any other option that held that label is
    reset to the unset label; every other option keeps its label, and an
    option without an entry stays without one. *)
Theorem updateRank_effect qId optIdx rank
    (s : gmap string (gmap nat string)) k :
  getRank (Ranking.updateRank qId optIdx rank s) qId k =
    if decide (k = optIdx) then Some rank
    else match getRank s qId k with
         | Some held => if decide (held = rank) then Some UNSET else Some held
         | None => None
         end.
Proof.
  rewrite getRank_updateRank. case_decide as Hk.
  - subst k. apply nextQData_lookup_eq.
  - rewrite nextQData_lookup_ne by done. by rewrite getRank_default.
Qed.

(** X3.  Updates of different questions commute. *)
Theorem updateRank_commutes qId1 optIdx1 rank1 qId2 optIdx2 rank2
    (s : gmap string (gmap nat string)) :
  qId1 ≠ qId2 →
  Ranking.updateRank qId1 optIdx1 rank1 (Ranking.updateRank qId2 optIdx2 rank2 s)
  = Ranking.updateRank qId2 optIdx2 rank2 (Ranking.updateRank qId1 optIdx1 rank1 s).
Proof.
  intros Hne.
  rewrite (updateRank_insert qId1 _ _ (Ranking.updateRank _ _ _ _)).
  rewrite (updateRank_insert qId2 _ _ (Ranking.updateRank _ _ _ _)).
  rewrite !(updateRank_insert _ _ _ s).
  rewrite !lookup_insert_ne by done.
  by apply insert_insert_ne.
Qed.

Lemma updateRank_commutes_witness :
  Ranking.updateRank "q1" 0 "1" (Ranking.updateRank "q2" 1 "No" ∅)
  = Ranking.updateRank "q2" 1 "No" (Ranking.updateRank "q1" 0 "1" ∅).
Proof. apply updateRank_commutes. done. Defined.

(** ** The guarded copy of the hook *)

Section guarded_facts.
Import Ranking RankingGuarded.
Implicit Types (s : gmap string (gmap nat string)) (m : gmap nat string).

Lemma updateRankGuarded_insert qId optIdx rank s :
  updateRankGuarded qId optIdx rank s =
    <[qId := nextQDataGuarded optIdx rank (default ∅ (s !! qId))]> s.
Proof.
  unfold updateRankGuarded, nextQDataGuarded.
  destruct (s !! qId) as [m|] eqn:Hq; simpl.
  - rewrite Hq. simpl. by case_decide.
  - rewrite lookup_insert_eq. simpl.
    case_decide; by rewrite insert_insert_eq.
Qed.

Lemma nextQDataGuarded_numeric optIdx rank m :
  rank ≠ "No" → nextQDataGuarded optIdx rank m = nextQData optIdx rank m.
Proof.
  intros Hr. unfold nextQDataGuarded, nextQData.
  case_decide; [done|]. by rewrite decide_True.
Qed.

Lemma nextQDataGuarded_No optIdx m :
  nextQDataGuarded optIdx "No" m = <[optIdx := "No"]> m.
Proof. reflexivity. Qed.

Lemma updateRankGuarded_numeric qId optIdx rank s :
  rank ≠ "No" → updateRankGuarded qId optIdx rank s = updateRank qId optIdx rank s.
Proof.
  intros Hr. rewrite updateRankGuarded_insert, updateRank_insert.
  by rewrite nextQDataGuarded_numeric.
Qed.

Lemma No_not_numeric : "No" ∉ numericRanks.
Proof. unfold numericRanks. set_solver. Qed.

Lemma exclusive_updateRankGuarded qId optIdx rank s :
  exclusive numericRanks s →
  exclusive numericRanks (updateRankGuarded qId optIdx rank s).
Proof.
  intros Hex. destruct (decide (rank = "No")) as [->|Hr].
  2:{ rewrite updateRankGuarded_numeric by done.
      apply exclusive_updateRank; [apply UNSET_not_numeric|done]. }
  rewrite updateRankGuarded_No.
  intros q a b l Hl Ha Hb.
  assert (l ≠ "No") as Hne by (intros ->; by apply No_not_numeric).
  destruct (decide (qId = q)) as [<-|Hq].
  - unfold getRank in Ha, Hb. rewrite lookup_insert_eq in Ha, Hb. simpl in *.
    destruct (decide (a = optIdx)) as [->|Hao].
    { rewrite lookup_insert_eq in Ha. congruence. }
    destruct (decide (b = optIdx)) as [->|Hbo].
    { rewrite lookup_insert_eq in Hb. congruence. }
    rewrite lookup_insert_ne in Ha, Hb by done.
    rewrite <-getRank_default in Ha, Hb. eauto.
  - unfold getRank in Ha, Hb. rewrite lookup_insert_ne in Ha, Hb by done. eauto.
Qed.

End guarded_facts.

(** X4.  The two copies of the hook differ on "No" only: for every other
    label, the unset one included, they compute the same state. *)
Theorem updateRankGuarded_agrees qId optIdx rank
    (s : gmap string (gmap nat string)) :
  rank ≠ "No" →
  Ranking.updateRankGuarded qId optIdx rank s = Ranking.updateRank qId optIdx rank s.
Proof. apply updateRankGuarded_numeric. Qed.

Lemma updateRankGuarded_agrees_witness :
  Ranking.updateRankGuarded "q1" 1 "3" (Ranking.updateRank "q1" 0 "3" ∅)
  = Ranking.updateRank "q1" 1 "3" (Ranking.updateRank "q1" 0 "3" ∅).
Proof. apply updateRankGuarded_agrees. done. Defined.

(** X5.  The guarded hook keeps numeric exclusivity: every call preserves
    it, so in every state reachable from the empty state each of "1".."5" is
    held by at most one option of a question. *)
Theorem updateRankGuarded_numeric_exclusivity :
  (∀ s qId optIdx rank,
     Ranking.exclusive numericRanks s →
     Ranking.exclusive numericRanks (Ranking.updateRankGuarded qId optIdx rank s))
  ∧ (∀ s, RankingGuarded.reachable s → Ranking.exclusive numericRanks s).
Proof.
  split.
  - intros. by apply exclusive_updateRankGuarded.
  - intros s Hs. induction Hs as [|qId optIdx rank s _ IH].
    + apply exclusive_empty.
    + by apply exclusive_updateRankGuarded.
Qed.

Lemma updateRankGuarded_numeric_exclusivity_witness :
  Ranking.exclusive numericRanks
    (Ranking.updateRankGuarded "q1" 1 "No" (Ranking.updateRankGuarded "q1" 0 "2" ∅)).
Proof.
  destruct updateRankGuarded_numeric_exclusivity as [_ Hreach].
  apply Hreach. do 2 apply RankingGuarded.reachable_step.
  apply RankingGuarded.reachable_init.
Defined.

(** X6.  In the guarded hook marking an option "No" changes that option and
    nothing else: every other option of the question, "No" holders included,
    keeps what it had. *)
Theorem updateRankGuarded_No_effect qId optIdx
    (s : gmap string (gmap nat string)) k :
  getRank (Ranking.updateRankGuarded qId optIdx "No" s) qId k =
    if decide (k = optIdx) then Some "No" else getRank s qId k.
Proof.
  rewrite updateRankGuarded_No. unfold getRank at 1.
  rewrite lookup_insert_eq. simpl. case_decide as Hk.
  - subst k. apply lookup_insert_eq.
  - rewrite lookup_insert_ne by done. by rewrite getRank_default.
Qed.

(** X7.  The guarded hook is idempotent too. *)
Theorem updateRankGuarded_idempotent qId optIdx rank
    (s : gmap string (gmap nat string)) :
  Ranking.updateRankGuarded qId optIdx rank
    (Ranking.updateRankGuarded qId optIdx rank s)
  = Ranking.updateRankGuarded qId optIdx rank s.
Proof.
  rewrite (updateRankGuarded_insert qId optIdx rank (Ranking.updateRankGuarded _ _ _ _)).
  rewrite updateRankGuarded_insert, lookup_insert_eq. simpl.
  rewrite insert_insert_eq. f_equal.
  destruct (decide (rank = "No")) as [->|Hr].
  - rewrite !nextQDataGuarded_No. apply insert_insert_eq.
  - rewrite !nextQDataGuarded_numeric by done. apply nextQData_idemp.
Qed.

(** ** Validation and focus *)

Section validation_more.
Import Validation ValidationSpec Focus.
Implicit Types (responses : gmap string (gmap nat string)).

Lemma validateForm_errors_split questions responses finalComment :
  ∃ qErrs cErrs,
    questionErrors responses 0 questions qErrs
    ∧ commentErrors finalComment cErrs
    ∧ errors (validateForm questions responses finalComment) = qErrs ++ cErrs.
Proof.
  destruct (foldl_checkQuestion responses questions 0 []) as (qErrs & Hq & Hfold).
  simpl in Hfold. unfold validateForm, entries. cbn [errors]. rewrite Hfold.
  destruct (negb _ || negb _) eqn:Hc.
  - exists qErrs, [FinalCommentError finalCommentMessage].
    split_and!; [done| |done]. left. split; [|done]. by apply comment_test.
  - exists qErrs, []. split_and!; [done| |by rewrite app_nil_r].
    right. split; [|done]. rewrite <-comment_test. by rewrite Hc.
Qed.

Lemma questionErrors_nil responses idx qs errs :
  questionErrors responses idx qs errs →
  errs = [] ↔ Forall (answered responses) qs.
Proof.
  induction 1 as [idx|idx q qs errs Hq _ IH|idx q qs errs Hq _ IH].
  - done.
  - rewrite IH, Forall_cons. naive_solver.
  - rewrite Forall_cons. naive_solver.
Qed.

Lemma questionErrors_elem responses idx qs errs e :
  questionErrors responses idx qs errs →
  e ∈ errs ↔
    ∃ j q, qs !! j = Some q ∧ ¬ answered responses q
           ∧ e = questionError (idx + j) q.
Proof.
  induction 1 as [idx|idx q qs errs Hq _ IH|idx q qs errs Hq _ IH].
  - split; [by intros ?%elem_of_nil|]. by intros (j & q & ? & _).
  - rewrite IH. split.
    + intros (j & q' & Hj & Hn & ->). exists (S j), q'.
      split_and!; [done|done|]. f_equal. lia.
    + intros ([|j] & q' & Hj & Hn & ->); simpl in Hj.
      * by simplify_eq.
      * exists j, q'. split_and!; [done|done|]. f_equal. lia.
  - rewrite elem_of_cons, IH. split.
    + intros [->|(j & q' & Hj & Hn & ->)].
      * exists 0, q. split_and!; [done|done|]. f_equal. lia.
      * exists (S j), q'. split_and!; [done|done|]. f_equal. lia.
    + intros ([|j] & q' & Hj & Hn & ->); simpl in Hj.
      * left. simplify_eq. f_equal. lia.
      * right. exists j, q'. split_and!; [done|done|]. f_equal. lia.
Qed.

Lemma questionErrors_first responses pre q post : ∀ idx errs,
  questionErrors responses idx (pre ++ q :: post) errs →
  Forall (answered responses) pre → ¬ answered responses q →
  ∃ rest, errs = questionError (idx + length pre) q :: rest.
Proof.
  induction pre as [|p pre IH]; intros idx errs Herrs Hpre Hq; simpl in Herrs.
  - inversion Herrs; subst; [done|]. eexists. simpl. by rewrite Nat.add_0_r.
  - apply Forall_cons in Hpre as [Hp Hpre].
    inversion Herrs; subst; [|done].
    destruct (IH (S idx) errs) as (rest & ->); [done..|].
    exists rest. simpl. do 2 f_equal. lia.
Qed.

Lemma questionErrors_all_question responses idx qs errs :
  questionErrors responses idx qs errs → Forall (λ e, isQuestion e = true) errs.
Proof. induction 1; [constructor|done|by constructor]. Qed.

Lemma find_isFinalComment_question errs :
  Forall (λ e, isQuestion e = true) errs → List.find isFinalComment errs = None.
Proof.
  induction 1 as [|e errs He _ IH]; [done|]. simpl.
  destruct e; [done|discriminate He].
Qed.

Lemma find_isQuestion_comment (pre post : list ValidationError) :
  Forall (λ e, isFinalComment e = true) pre →
  List.find isQuestion (pre ++ post) = List.find isQuestion post.
Proof.
  induction 1 as [|e pre He _ IH]; [done|]. simpl.
  destruct e; [discriminate He|done].
Qed.

Lemma hasAnyRank_questionless responses qId :
  hasAnyRank (responses !! qId) = true ↔
  ∃ optIdx rank, getRank responses qId optIdx = Some rank ∧ rank ≠ UNSET.
Proof.
  apply (hasAnyRank_answered responses (Question.mk qId EmptyString None [])).
Qed.

Lemma focus_none errs : getFirstUnansweredElementId errs = None ↔ errs = [].
Proof.
  destruct errs as [|e errs]; [done|].
  unfold getFirstUnansweredElementId. split; [|done].
  destruct e; simpl; [done|]. by destruct (List.find isQuestion errs).
Qed.

End validation_more.

(** X8.  A form is valid exactly when every question is answered and the
    final comment is not blank. *)
Theorem validateForm_valid_iff questions
    (responses : gmap string (gmap nat string)) finalComment :
  Validation.isValid (Validation.validateForm questions responses finalComment) = true
  ↔ Forall (ValidationSpec.answered responses) questions
    ∧ ¬ ValidationSpec.blank finalComment.
Proof.
  destruct (validateForm_errors_split questions responses finalComment)
    as (qErrs & cErrs & Hq & Hc & Herrs).
  unfold Validation.validateForm in *. cbn [Validation.isValid Validation.errors] in *.
  rewrite Nat.eqb_eq, length_zero_iff_nil, Herrs.
  rewrite <-(questionErrors_nil _ _ _ _ Hq).
  split.
  - intros [-> ->]%app_eq_nil. split; [done|].
    by destruct Hc as [[_ ?]|[? _]].
  - intros [-> Hnb]. by destruct Hc as [[? _]|[_ ->]].
Qed.

(** X9.  The question errors are those of the unanswered questions and no
    others: an error with identifier [qId], index [qIdx] and message
    [message] is reported iff the question at position [qIdx] is unanswered,
    has that identifier, and the message is that of its position and text. *)
Theorem validateForm_question_errors questions
    (responses : gmap string (gmap nat string)) finalComment qId qIdx message :
  Validation.QuestionError qId qIdx message
    ∈ Validation.errors (Validation.validateForm questions responses finalComment)
  ↔ ∃ q, questions !! qIdx = Some q
         ∧ ¬ ValidationSpec.answered responses q
         ∧ qId = Question.id q
         ∧ message = Validation.questionMessage qIdx q.
Proof.
  destruct (validateForm_errors_split questions responses finalComment)
    as (qErrs & cErrs & Hq & Hc & ->).
  rewrite elem_of_app, (questionErrors_elem _ _ _ _ _ Hq). split.
  - intros [(j & q & Hj & Hn & He)|Hin].
    + rewrite <-questionMessage_spec in He. simpl in He. simplify_eq.
      by exists q.
    + destruct Hc as [[_ ->]|[_ ->]]; [|by apply elem_of_nil in Hin].
      apply list_elem_of_singleton in Hin. done.
  - intros (q & Hj & Hn & -> & ->). left. exists qIdx, q.
    split_and!; [done|done|]. by rewrite <-questionMessage_spec.
Qed.

(** X10.  Where the form scrolls after validation: nowhere iff the form is
    valid; to the first unanswered question, in question order, if there is
    one; and to the final comment when every question is answered and the
    comment is blank. *)
Theorem focus_after_validation questions
    (responses : gmap string (gmap nat string)) finalComment :
  let result := Validation.validateForm questions responses finalComment in
  let target := Focus.getFirstUnansweredElementId (Validation.errors result) in
  (target = None ↔ Validation.isValid result = true)
  ∧ (∀ pre q post,
       questions = pre ++ q :: post →
       Forall (ValidationSpec.answered responses) pre →
       ¬ ValidationSpec.answered responses q →
       target = Some ("question-" +:+ Question.id q))
  ∧ (Forall (ValidationSpec.answered responses) questions →
     ValidationSpec.blank finalComment →
     target = Some "final-comments").
Proof.
  intros result target. subst result target.
  destruct (validateForm_errors_split questions responses finalComment)
    as (qErrs & cErrs & Hq & Hc & Herrs).
  split_and!.
  - rewrite focus_none. unfold Validation.validateForm.
    cbn [Validation.isValid Validation.errors].
    by rewrite Nat.eqb_eq, length_zero_iff_nil.
  - intros pre q post -> Hpre Hn. rewrite Herrs.
    destruct (questionErrors_first _ _ _ _ _ _ Hq Hpre Hn) as (rest & ->).
    reflexivity.
  - intros Hall Hblank. rewrite Herrs.
    apply (questionErrors_nil _ _ _ _ Hq) in Hall as ->.
    destruct Hc as [[_ ->]|[? _]]; [reflexivity|done].
Qed.

Lemma focus_after_validation_witness :
  let q1 := Question.mk "q1" "First?" None ["A"; "B"] in
  let q2 := Question.mk "q2" "Second?" None ["C"] in
  Focus.getFirstUnansweredElementId
    (Validation.errors
       (Validation.validateForm [q1; q2] (Ranking.updateRank "q1" 0 "1" ∅) "ok"))
  = Some "question-q2".
Proof.
  intros q1 q2.
  destruct (focus_after_validation [q1; q2] (Ranking.updateRank "q1" 0 "1" ∅) "ok")
    as (_ & Hfirst & _).
  apply (Hfirst [q1] q2 []).
  - reflexivity.
  - constructor; [|constructor]. apply hasAnyRank_answered. vm_compute. reflexivity.
  - intros Ha. apply hasAnyRank_answered in Ha. vm_compute in Ha. discriminate Ha.
Defined.

(** X11.  A question error takes priority over final-comment errors placed
    before it in the array: the element is that of the first question
    error. *)
Theorem focus_question_priority pre qId qIdx message post :
  Forall (λ e, Focus.isFinalComment e = true) pre →
  Focus.getFirstUnansweredElementId
    (pre ++ Validation.QuestionError qId qIdx message :: post)
  = Some ("question-" +:+ qId).
Proof.
  intros Hpre. unfold Focus.getFirstUnansweredElementId.
  by rewrite find_isQuestion_comment.
Qed.

Lemma focus_question_priority_witness :
  Focus.getFirstUnansweredElementId
    [Validation.FinalCommentError "..."; Validation.QuestionError "q1" 0 "..."]
  = Some "question-q1".
Proof.
  apply (focus_question_priority [Validation.FinalCommentError "..."] "q1" 0 "..." []).
  constructor; [reflexivity|constructor].
Defined.

(** X12.  The store seen by the validator: giving an option a non-empty
    label makes its question count as ranked; clearing an option leaves the
    question ranked iff another option holds a non-empty label; and an update
    never changes whether another question is ranked. *)
Theorem hasAnyRank_after_updateRank qId optIdx
    (s : gmap string (gmap nat string)) :
  (∀ rank, rank ≠ UNSET →
     Validation.hasAnyRank (Ranking.updateRank qId optIdx rank s !! qId) = true)
  ∧ (Validation.hasAnyRank (Ranking.updateRank qId optIdx UNSET s !! qId) = true
     ↔ ∃ k rank, k ≠ optIdx ∧ getRank s qId k = Some rank ∧ rank ≠ UNSET)
  ∧ (∀ rank qId', qId ≠ qId' →
       Validation.hasAnyRank (Ranking.updateRank qId optIdx rank s !! qId')
       = Validation.hasAnyRank (s !! qId')).
Proof.
  split_and!.
  - intros rank Hr. apply hasAnyRank_questionless.
    exists optIdx, rank. split; [|done].
    rewrite getRank_updateRank. apply nextQData_lookup_eq.
  - rewrite hasAnyRank_questionless. split.
    + intros (k & rank & Hk & Hr). rewrite getRank_updateRank in Hk.
      destruct (decide (k = optIdx)) as [->|Hne].
      { rewrite nextQData_lookup_eq in Hk. by simplify_eq. }
      rewrite nextQData_lookup_ne, <-getRank_default in Hk by done.
      destruct (getRank s qId k) as [held|] eqn:Hheld; [|done].
      case_decide; simplify_eq; try done; by exists k, rank.
    + intros (k & rank & Hne & Hk & Hr). exists k, rank. split; [|done].
      rewrite getRank_updateRank, nextQData_lookup_ne, <-getRank_default, Hk by done.
      by rewrite decide_False.
  - intros rank qId' Hne. rewrite updateRank_insert.
    by rewrite lookup_insert_ne.
Qed.

Lemma hasAnyRank_after_updateRank_witness :
  Validation.hasAnyRank (Ranking.updateRank "q1" 0 "No" ∅ !! "q1") = true
  ∧ Validation.hasAnyRank (Ranking.updateRank "q1" 0 "No" ∅ !! "q2")
    = Validation.hasAnyRank ((∅ : gmap string (gmap nat string)) !! "q2").
Proof.
  destruct (hasAnyRank_after_updateRank "q1" 0 ∅) as (Hset & _ & Hother).
  split; [by apply Hset|by apply Hother].
Defined.

(** ** Text checks and the sanitizer *)

Section text_facts.
Import Js Sanitization SanitizationSpec TextChecks.

Lemma length_zero_string (s : string) : String.length s = 0 ↔ s = EmptyString.
Proof. by destruct s. Qed.

Lemma chars_app (s t : string) : chars (s +:+ t) = chars s ++ chars t.
Proof.
  unfold chars. induction s as [|c s IH]; [done|].
  rewrite append_cons. simpl. by rewrite IH.
Qed.

Lemma length_chars (s : string) : length (chars s) = String.length s.
Proof. unfold chars. induction s as [|c s IH]; simpl; [done|]. by rewrite IH. Qed.

Lemma chars_inj (s t : string) : chars s = chars t → s = t.
Proof.
  unfold chars. revert t. induction s as [|c s IH]; intros [|d t]; simpl; try done.
  intros ?; simplify_eq. f_equal. by apply IH.
Qed.

Lemma length_trim s : String.length (trim s) ≤ String.length s.
Proof.
  destruct (trim_trims s) as (pre & post & _ & _ & Hs & _).
  rewrite Hs at 2. rewrite !length_app_string. lia.
Qed.

Lemma chars_trim_sublist s : chars (trim s) `sublist_of` chars s.
Proof.
  destruct (trim_trims s) as (pre & post & _ & _ & Hs & _).
  rewrite Hs at 2. rewrite !chars_app.
  apply sublist_inserts_l, sublist_inserts_r. done.
Qed.

Lemma chars_substring0 n s : chars (substring0 n s) = take n (chars s).
Proof.
  unfold substring0, chars. revert n.
  induction s as [|c s IH]; intros [|n]; simpl; try done.
  by rewrite IH.
Qed.

Lemma chars_replaceAllFrom_sublist alternatives s : ∀ skip,
  chars (replaceAllFrom alternatives skip s) `sublist_of` chars s.
Proof.
  unfold chars. induction s as [|c s IH]; intros skip; cbn [replaceAllFrom]; [done|].
  destruct skip as [|skip].
  - destruct (matchAlternation alternatives (String c s)) as [[|n]|]; simpl.
    + by apply sublist_skip.
    + by apply sublist_cons.
    + by apply sublist_skip.
  - simpl. by apply sublist_cons.
Qed.

Lemma trimStart_id s :
  (∀ c t, s = String c t → isWhiteSpace c = false) → trimStart s = s.
Proof.
  intros Hhead. destruct s as [|c s]; [done|]. simpl.
  by rewrite (Hhead c s eq_refl).
Qed.

Lemma trimEnd_id s :
  (∀ t c, s = t +:+ String c EmptyString → isWhiteSpace c = false) →
  trimEnd s = s.
Proof.
  induction s as [|c s IH]; intros Hlast; [done|]. cbn [trimEnd].
  rewrite IH.
  2:{ intros t d ->. apply (Hlast (String c t) d). by rewrite append_cons. }
  destruct s as [|d s]; [|done].
  by rewrite (Hlast EmptyString c eq_refl).
Qed.

Lemma substring0_all n s : String.length s ≤ n → substring0 n s = s.
Proof.
  unfold substring0. revert n.
  induction s as [|c s IH]; intros [|n]; simpl; try done; try lia.
  intros Hn. rewrite IH; [done|lia].
Qed.

End text_facts.



Lemma isTextLengthValid_Str s minLength maxLength :
  (0 ≤ minLength)%Z → (0 ≤ maxLength)%Z →
  TextChecks.isTextLengthValid (Js.Str s) (Some minLength) (Some maxLength)
  = Js.Normal
      (bool_decide (minLength ≤ Z.of_nat (String.length (Js.trim s)) ≤ maxLength)%Z).
Proof.
  intros Hmin Hmax. unfold TextChecks.isTextLengthValid.
  cbn [default Js.isString negb]. rewrite orb_false_r.
  destruct (Js.toBoolean (Js.Str s)) eqn:Hb; cbn [negb].
  - cbn [Js.callTrim Js.bind]. f_equal.
    apply eq_true_iff_eq. rewrite andb_true_iff, !Z.leb_le, bool_decide_eq_true.
    done.
  - apply not_true_iff_false in Hb. rewrite toBoolean_Str in Hb.
    destruct (decide (s = EmptyString)) as [->|]; [|done].
    f_equal. apply eq_true_iff_eq.
    rewrite Z.eqb_eq, bool_decide_eq_true. simpl. lia.
Qed.

(** X14.  [isTextLengthValid] never throws; a non-string or absent text is
    valid iff the minimum is 0; for non-negative bounds a string is valid iff
    the length of its trimmed form lies between them. *)
Theorem isTextLengthValid_behaviour :
  (∀ text minLength maxLength,
     ∃ b, TextChecks.isTextLengthValid text minLength maxLength = Js.Normal b)
  ∧ (∀ text minLength maxLength,
       Js.isString text = false →
       TextChecks.isTextLengthValid text minLength maxLength
       = Js.Normal (default 0 minLength =? 0)%Z)
  ∧ (∀ s minLength maxLength,
       (0 ≤ minLength)%Z → (0 ≤ maxLength)%Z →
       TextChecks.isTextLengthValid (Js.Str s) (Some minLength) (Some maxLength)
       = Js.Normal
           (bool_decide (minLength ≤ Z.of_nat (String.length (Js.trim s)) ≤ maxLength)%Z)).
Proof.
  split_and!.
  - intros text minLength maxLength. unfold TextChecks.isTextLengthValid.
    destruct (negb _ || negb _) eqn:Hg; [by eexists|].
    apply orb_false_iff in Hg as [_ Hs%negb_false_iff].
    destruct text; try done. by eexists.
  - intros text minLength maxLength Hs. unfold TextChecks.isTextLengthValid.
    by rewrite Hs, orb_true_r.
  - apply isTextLengthValid_Str.
Qed.

Lemma isTextLengthValid_behaviour_witness :
  TextChecks.isTextLengthValid Js.Null (Some 1%Z) (Some 10%Z) = Js.Normal false
  ∧ TextChecks.isTextLengthValid (Js.Str "  hello  ") (Some 5%Z) (Some 5%Z)
    = Js.Normal true.
Proof.
  destruct isTextLengthValid_behaviour as (_ & Hother & Hstring).
  split.
  - apply (Hother Js.Null (Some 1%Z) (Some 10%Z)). reflexivity.
  - rewrite Hstring by lia. reflexivity.
Defined.

(** X15.  What the sanitizers return always passes the length check: the
    output of [sanitizeTextInput] with the default bounds, that of
    [sanitizeCommentInput] with the bounds 0 and 10000. *)
Theorem sanitized_length_valid text :
  (∃ clean,
     Sanitization.sanitizeTextInput text None = Js.Normal clean
     ∧ TextChecks.isTextLengthValid (Js.Str clean) None None = Js.Normal true)
  ∧ (∃ clean,
       Sanitization.sanitizeCommentInput text = Js.Normal clean
       ∧ TextChecks.isTextLengthValid (Js.Str clean)
           (Some 0%Z) (Some Sanitization.MAX_COMMENT_LENGTH) = Js.Normal true).
Proof.
  pose proof isTextLengthValid_Str as Hvalid.
  assert (∀ bound, (0 ≤ bound)%Z →
            ∃ clean,
              Sanitization.sanitizeTextInput text (Some bound) = Js.Normal clean
              ∧ TextChecks.isTextLengthValid (Js.Str clean) (Some 0%Z) (Some bound)
                = Js.Normal true) as Hgen.
  { intros bound Hbound. destruct (Js.isString text) eqn:Hs.
    - destruct text; try done. eexists. split; [apply sanitizeTextInput_Str|].
      rewrite Hvalid by lia. f_equal. apply bool_decide_eq_true_2.
      split; [lia|]. cbn [default].
      etrans; [apply inj_le, length_trim|].
      etrans; [apply inj_le, length_replaceAllFrom|].
      by apply length_slice0.
    - exists EmptyString. split; [by apply sanitizeTextInput_not_string|].
      reflexivity. }
  split.
  - apply (Hgen Sanitization.MAX_TEXT_LENGTH). done.
  - apply (Hgen Sanitization.MAX_COMMENT_LENGTH). done.
Qed.

(** X16.  The sanitizer only removes: its output consists of code units of
    the input, in their order, and is never longer than the input. *)
Theorem sanitizeTextInput_only_removes s maxLength :
  ∃ clean,
    Sanitization.sanitizeTextInput (Js.Str s) maxLength = Js.Normal clean
    ∧ SanitizationSpec.chars clean `sublist_of` SanitizationSpec.chars s
    ∧ String.length clean ≤ String.length s.
Proof.
  eexists. split; [apply sanitizeTextInput_Str|].
  assert (SanitizationSpec.chars
            (Js.replaceAll Sanitization.dangerousPatterns
               (Js.slice0 (Js.trim s)
                  (default Sanitization.MAX_TEXT_LENGTH maxLength)))
          `sublist_of` SanitizationSpec.chars s) as Hsub.
  { etrans; [apply chars_replaceAllFrom_sublist|].
    etrans; [|apply chars_trim_sublist].
    unfold Js.slice0. rewrite chars_substring0. apply sublist_take. }
  split; [done|]. rewrite <-!length_chars. by apply sublist_length.
Qed.

(** X17.  Text that needs no cleaning is returned as it is: a string with no
    white space at either end, no longer than [maxLength], in which no
    dangerous pattern occurs in any letter case. *)
Theorem sanitizeTextInput_clean_unchanged s maxLength :
  SanitizationSpec.trimmed s →
  (Z.of_nat (String.length s) ≤ maxLength)%Z →
  (∀ pattern, pattern ∈ Sanitization.dangerousPatterns →
              Js.includesIgnoreCase s pattern = false) →
  Sanitization.sanitizeTextInput (Js.Str s) (Some maxLength) = Js.Normal s.
Proof.
  intros [Hhead Hlast] Hlen Hclean.
  rewrite sanitizeTextInput_Str.
  change (default Sanitization.MAX_TEXT_LENGTH (Some maxLength)) with maxLength.
  f_equal. unfold Js.trim. rewrite (trimStart_id s Hhead), (trimEnd_id s Hlast).
  unfold Js.slice0.
  destruct (maxLength <? 0)%Z eqn:Hneg; [apply Z.ltb_lt in Hneg; lia|].
  rewrite substring0_all by lia.
  by apply replaceAll_clean.
Qed.

Lemma sanitizeTextInput_clean_unchanged_witness :
  Sanitization.sanitizeTextInput (Js.Str "Nice park, thanks!") (Some 5000%Z)
  = Js.Normal "Nice park, thanks!".
Proof.
  apply sanitizeTextInput_clean_unchanged.
  - split.
    + intros c t Heq. injection Heq as <- _. reflexivity.
    + intros t c Heq.
      assert (SanitizationSpec.chars "Nice park, thanks!"
              = SanitizationSpec.chars (t +:+ String c EmptyString)) as Hc
        by (by rewrite Heq).
      rewrite chars_app in Hc.
      change (SanitizationSpec.chars (String c EmptyString)) with [c] in Hc.
      apply (f_equal (@last _)) in Hc. rewrite last_snoc in Hc.
      vm_compute in Hc. by injection Hc as <-.
  - simpl. lia.
  - intros pattern Hin. unfold Sanitization.dangerousPatterns in Hin.
    rewrite !elem_of_cons, elem_of_nil in Hin.
    destruct Hin as [->|[->|[->|[->|[]]]]]; vm_compute; reflexivity.
Defined.

(** ** The normalizer *)

Section normalization_more.
Import Submission.
Implicit Types (responses : gmap string (gmap nat string)).

Lemma questions_loop_source responses qs :
  ∀ (acc : gmap string (gmap nat string)) qId entry,
  foldl (λ acc q, <[Question.id q := entryOf responses q]> acc) acc qs !! qId
    = Some entry →
  acc !! qId = Some entry
  ∨ ∃ q, q ∈ qs ∧ Question.id q = qId ∧ entry = entryOf responses q.
Proof.
  induction qs as [|q qs IH]; intros acc qId entry Hl; cbn [foldl] in Hl.
  - by left.
  - apply IH in Hl as [Hl|(q' & Hin & Hid & ->)].
    + destruct (decide (Question.id q = qId)) as [Heq|Hne].
      * rewrite <-Heq, lookup_insert_eq in Hl. simplify_eq.
        right. exists q. split_and!; [left|done|done].
      * rewrite lookup_insert_ne in Hl by done. by left.
    + right. exists q'. split_and!; [by right|done|done].
Qed.

Lemma questions_loop_some responses qs :
  ∀ (acc : gmap string (gmap nat string)) qId,
  qId ∈ Question.id <$> qs →
  is_Some (foldl (λ acc q, <[Question.id q := entryOf responses q]> acc) acc qs
             !! qId).
Proof.
  induction qs as [|q qs IH]; intros acc qId Hin; cbn [foldl].
  - by apply elem_of_nil in Hin.
  - destruct (decide (qId ∈ Question.id <$> qs)) as [Hin'|Hnot].
    + by apply IH.
    + rewrite questions_loop_fresh by done.
      rewrite fmap_cons in Hin. apply elem_of_cons in Hin as [->|?]; [|done].
      rewrite lookup_insert_eq. by eexists.
Qed.

(** The responses of the payload, entry by entry. *)
Lemma payload_lookup now questions responses otherText finalComment qId entry :
  Submission.responses
    (normalizeFormData now questions responses otherText finalComment) !! qId
    = Some entry →
  ∃ q, q ∈ questions ∧ Question.id q = qId ∧ entry = entryOf responses q.
Proof.
  unfold normalizeFormData. cbn [Submission.responses]. intros Hl.
  apply (questions_loop_source responses) in Hl as [Hl|?]; [|done].
  by rewrite lookup_empty in Hl.
Qed.

Lemma payload_lookup_member now questions responses otherText finalComment q :
  NoDup (Question.id <$> questions) → q ∈ questions →
  Submission.responses
    (normalizeFormData now questions responses otherText finalComment)
    !! Question.id q
  = Some (entryOf responses q).
Proof.
  intros Hnd Hin. unfold normalizeFormData. cbn [Submission.responses].
  by apply (questions_loop_member responses).
Qed.

Lemma payload_lookup_fresh now questions responses otherText finalComment qId :
  qId ∉ Question.id <$> questions →
  Submission.responses
    (normalizeFormData now questions responses otherText finalComment) !! qId
  = None.
Proof.
  intros Hnot. unfold normalizeFormData. cbn [Submission.responses].
  etrans; [by apply (questions_loop_fresh responses)|]. apply lookup_empty.
Qed.

Lemma orNo_orNo held : orNo (Some (orNo held)) = orNo held.
Proof.
  rewrite (orNo_spec (Some _)). rewrite decide_False; [done|apply orNo_set].
Qed.

Lemma fillEntry_fillEntry numOptions (qData : gmap nat string) :
  fillEntry numOptions (fillEntry numOptions qData) = fillEntry numOptions qData.
Proof.
  apply map_eq. intros i. rewrite !fillEntry_lookup.
  case_decide; [|done]. by rewrite orNo_orNo.
Qed.

Lemma orNo_numeric held rank :
  orNo held = rank → rank ∈ numericRanks → held = Some rank.
Proof.
  rewrite orNo_spec. intros Hr Hnum. destruct held as [held|].
  - case_decide; [|by subst]. subst. by apply No_not_numeric in Hnum.
  - subst. by apply No_not_numeric in Hnum.
Qed.

End normalization_more.

(** X18.  The payload holds an entry for the questions of the list and for
    nothing else, and an entry holds the option indices of its question and
    no other: stale question identifiers and out-of-range indices of the
    responses are dropped. *)
Theorem normalizeFormData_shape now questions
    (responses : gmap string (gmap nat string)) otherText finalComment :
  let payload :=
    Submission.normalizeFormData now questions responses otherText finalComment in
  (∀ qId, is_Some (Submission.responses payload !! qId)
          ↔ qId ∈ Question.id <$> questions)
  ∧ (∀ qId entry,
       Submission.responses payload !! qId = Some entry →
       ∃ q, q ∈ questions ∧ Question.id q = qId
            ∧ ∀ optIdx, is_Some (entry !! optIdx)
                        ↔ optIdx < length (Question.options q)).
Proof.
  intros payload. subst payload. split.
  - intros qId. split.
    + intros [entry Hentry].
      apply payload_lookup in Hentry as (q & Hin & <- & _).
      by apply list_elem_of_fmap_2.
    + intros Hin. unfold Submission.normalizeFormData. cbn [Submission.responses].
      by apply (questions_loop_some responses).
  - intros qId entry Hentry.
    apply payload_lookup in Hentry as (q & Hin & Hid & ->).
    exists q. split_and!; [done|done|].
    intros optIdx. unfold Submission.entryOf. rewrite fillEntry_lookup.
    case_decide; split; try done; try lia.
Qed.

(** X19.  Normalizing is idempotent on the responses: normalizing the
    responses of a payload again gives the same responses. *)
Theorem normalizeFormData_idempotent now now' questions
    (responses : gmap string (gmap nat string))
    otherText otherText' finalComment finalComment' :
  NoDup (Question.id <$> questions) →
  let payload :=
    Submission.normalizeFormData now questions responses otherText finalComment in
  Submission.responses
    (Submission.normalizeFormData now' questions
       (Submission.responses payload) otherText' finalComment')
  = Submission.responses payload.
Proof.
  intros Hnd payload. apply map_eq. intros qId.
  destruct (decide (qId ∈ Question.id <$> questions)) as [Hin|Hnot].
  - apply list_elem_of_fmap in Hin as (q & -> & Hin).
    rewrite (payload_lookup_member now' _ _ _ _ q Hnd Hin).
    subst payload. rewrite (payload_lookup_member now _ _ _ _ q Hnd Hin).
    f_equal. unfold Submission.entryOf at 1.
    rewrite (payload_lookup_member now _ _ _ _ q Hnd Hin). simpl.
    apply fillEntry_fillEntry.
  - subst payload. by rewrite !payload_lookup_fresh.
Qed.

Lemma normalizeFormData_idempotent_witness :
  let q1 := Question.mk "q1" "Which?" None ["A"; "B"] in
  let payload :=
    Submission.normalizeFormData "t" [q1] (Ranking.updateRank "q1" 0 "1" ∅) ∅ "fine" in
  Submission.responses
    (Submission.normalizeFormData "u" [q1] (Submission.responses payload) ∅ "fine")
  = Submission.responses payload.
Proof.
  intros q1 payload. apply normalizeFormData_idempotent.
  apply NoDup_cons. split; [apply not_elem_of_nil|apply NoDup_nil_2].
Defined.

(** X20.  Normalization keeps numeric exclusivity: if in the responses each
    of "1".."5" is held by at most one option of a question, the same holds
    in the payload. *)
Theorem normalizeFormData_exclusive now questions
    (responses : gmap string (gmap nat string)) otherText finalComment :
  Ranking.exclusive numericRanks responses →
  Ranking.exclusive numericRanks
    (Submission.responses
       (Submission.normalizeFormData now questions responses otherText finalComment)).
Proof.
  intros Hex qId a b rank Hnum Ha Hb. unfold getRank in Ha, Hb.
  destruct (Submission.responses _ !! qId) as [entry|] eqn:Hentry; [|done].
  simpl in Ha, Hb.
  apply payload_lookup in Hentry as (q & _ & <- & ->).
  unfold Submission.entryOf in Ha, Hb. rewrite fillEntry_lookup in Ha, Hb.
  destruct (decide (a < length (Question.options q))); [|done].
  destruct (decide (b < length (Question.options q))); [|done].
  injection Ha as Ha. injection Hb as Hb.
  apply orNo_numeric in Ha; [|done]. apply orNo_numeric in Hb; [|done].
  rewrite <-getRank_default in Ha, Hb. eauto.
Qed.

Lemma normalizeFormData_exclusive_witness :
  Ranking.exclusive numericRanks
    (Submission.responses
       (Submission.normalizeFormData "t"
          [Question.mk "q1" "Which?" None ["A"; "B"]]
          (Ranking.updateRank "q1" 0 "1" ∅) ∅ "fine")).
Proof.
  apply normalizeFormData_exclusive.
  apply exclusive_reachable; [apply UNSET_not_numeric|].
  apply Ranking.reachable_step, Ranking.reachable_init.
Defined.

Lemma normalizeFormData_shape_witness :
  let q1 := Question.mk "q1" "Which?" None ["A"; "B"] in
  let stale : gmap string (gmap nat string) :=
    <["q9" := {[0 := "1"]}]> (<["q1" := {[7 := "2"]}]> ∅) in
  let payload := Submission.normalizeFormData "t" [q1] stale ∅ "fine" in
  ¬ is_Some (Submission.responses payload !! "q9")
  ∧ ∀ entry, Submission.responses payload !! "q1" = Some entry →
             ¬ is_Some (entry !! 7).
Proof.
  intros q1 stale payload.
  destruct (normalizeFormData_shape "t" [q1] stale ∅ "fine") as [Hdom Hentry].
  split.
  - intros Hin. apply (Hdom "q9") in Hin.
    apply list_elem_of_fmap in Hin as (q & Hq & Hin).
    apply list_elem_of_singleton in Hin. subst q. discriminate Hq.
  - intros entry Hl Hsome. destruct (Hentry "q1" entry Hl) as (q & Hin & _ & Hidx).
    apply list_elem_of_singleton in Hin. subst q.
    apply (Hidx 7) in Hsome. simpl in Hsome. lia.
Defined.

(** X21.  After normalization every question that has an option counts as
    ranked: the "No" fill leaves the validator nothing to report on the
    payload. *)
Theorem normalized_questions_ranked now questions
    (responses : gmap string (gmap nat string)) otherText finalComment q :
  NoDup (Question.id <$> questions) →
  q ∈ questions → Question.options q ≠ [] →
  Validation.hasAnyRank
    (Submission.responses
       (Submission.normalizeFormData now questions responses otherText finalComment)
     !! Question.id q) = true.
Proof.
  intros Hnd Hin Hopts. apply hasAnyRank_questionless.
  exists 0, (Submission.orNo (default ∅ (responses !! Question.id q) !! 0)).
  split; [|apply orNo_set].
  unfold getRank. rewrite (payload_lookup_member now _ _ _ _ q Hnd Hin). simpl.
  unfold Submission.entryOf. rewrite fillEntry_lookup, decide_True; [done|].
  destruct (Question.options q); [done|simpl; lia].
Qed.

Lemma normalized_questions_ranked_witness :
  let q1 := Question.mk "q1" "Which?" None ["A"; "B"] in
  Validation.hasAnyRank
    (Submission.responses (Submission.normalizeFormData "t" [q1] ∅ ∅ "fine")
     !! "q1") = true.
Proof.
  intros q1.
  apply (normalized_questions_ranked "t" [q1] ∅ ∅ "fine" q1).
  - apply NoDup_cons. split; [apply not_elem_of_nil|apply NoDup_nil_2].
  - left.
  - discriminate.
Defined.

(** ** The retry loop, for any transport *)

Section submit_more.
Import Js Submission.
Variable fetch : nat → FetchOutcome.
Variable data : Payload.
Variable scriptUrl : string.
Variable opts : Options.

Abbreviation loop' := (attemptLoop fetch data scriptUrl opts).

Lemma delays_fetch attempt url body trace :
  delays (EvFetch attempt url body :: trace) = delays trace.
Proof. reflexivity. Qed.

Lemma delays_app trace1 trace2 :
  delays (trace1 ++ trace2) = delays trace1 ++ delays trace2.
Proof. apply omap_app. Qed.

Lemma delays_catchBlock attempt error :
  delays (catchBlock opts attempt error) =
    if attempt =? maxRetries opts then []
    else [(initialRetryDelay opts * Z.of_nat attempt)%Z].
Proof.
  unfold catchBlock.
  destruct (attempt =? maxRetries opts), (onRetry opts); done.
Qed.

Lemma fetchAttempts_catchBlock attempt error :
  fetchAttempts (catchBlock opts attempt error) = [].
Proof.
  unfold catchBlock.
  destruct (attempt =? maxRetries opts), (onRetry opts); done.
Qed.

Lemma onRetryCalls_catchBlock attempt error :
  onRetryCalls (catchBlock opts attempt error) =
    if onRetry opts
    then [(attempt, errorMessage opts error,
           if attempt =? maxRetries opts then 0%Z
           else (initialRetryDelay opts * Z.of_nat attempt)%Z)]
    else [].
Proof.
  unfold catchBlock.
  destruct (attempt =? maxRetries opts), (onRetry opts); done.
Qed.

(** The requests of the loop are consecutive attempts, at most [remaining]. *)
Lemma attemptLoop_attempts remaining : ∀ attempt lastError,
  ∃ k, k ≤ remaining
       ∧ fetchAttempts (loop' remaining attempt lastError).1 = seq attempt k.
Proof.
  induction remaining as [|remaining IH]; intros attempt lastError.
  - by exists 0.
  - destruct (fetch attempt) as [|error] eqn:Hf.
    + rewrite attemptLoop_resolved by done. exists 1. split; [lia|done].
    + rewrite (attemptLoop_rejected _ _ _ _ _ _ _ error) by done. cbn [fst].
      destruct (IH (S attempt) (Some error)) as (k & Hk & Hseq).
      exists (S k). split; [lia|].
      by rewrite fetchAttempts_fetch, fetchAttempts_app, fetchAttempts_catchBlock, Hseq.
Qed.

(** The loop resolves iff one of its attempts does. *)
Lemma attemptLoop_resolves remaining : ∀ attempt lastError,
  (loop' remaining attempt lastError).2 = Normal SuccessTrue
  ↔ ∃ k, attempt ≤ k < attempt + remaining ∧ fetch k = Resolved.
Proof.
  induction remaining as [|remaining IH]; intros attempt lastError.
  - simpl. split; [done|]. intros (k & ? & _). lia.
  - destruct (fetch attempt) as [|error] eqn:Hf.
    + rewrite attemptLoop_resolved by done. split; [|done].
      intros _. exists attempt. split; [lia|done].
    + rewrite (attemptLoop_rejected _ _ _ _ _ _ _ error) by done. cbn [snd].
      rewrite IH. split.
      * intros (k & Hk & Hr). exists k. split; [lia|done].
      * intros (k & Hk & Hr). exists k. split; [|done].
        destruct (decide (k = attempt)) as [->|]; [congruence|lia].
Qed.

Lemma attemptLoop_throws remaining : ∀ attempt lastError message,
  (loop' remaining attempt lastError).2 = Throw message →
  ∃ lastError', message = exhaustedMessage opts lastError'.
Proof.
  induction remaining as [|remaining IH]; intros attempt lastError message.
  - simpl. intros ?; simplify_eq. by eexists.
  - destruct (fetch attempt) as [|error] eqn:Hf.
    + by rewrite attemptLoop_resolved.
    + rewrite (attemptLoop_rejected _ _ _ _ _ _ _ error) by done. apply IH.
Qed.

(** The run up to the first attempt that resolves. *)
Lemma attemptLoop_first_success errorAt k remaining : ∀ attempt lastError,
  attempt + remaining = S (maxRetries opts) →
  attempt ≤ k ≤ maxRetries opts →
  (∀ j, attempt ≤ j < k → fetch j = Rejected (errorAt j)) →
  fetch k = Resolved →
  let run := loop' remaining attempt lastError in
  fetchAttempts run.1 = seq attempt (S k - attempt)
  ∧ onRetryCalls run.1 =
      (if onRetry opts
       then (λ j, (j, errorMessage opts (errorAt j),
                   (initialRetryDelay opts * Z.of_nat j)%Z))
              <$> seq attempt (k - attempt)
       else [])
  ∧ delays run.1 =
      (λ j, (initialRetryDelay opts * Z.of_nat j)%Z) <$> seq attempt (k - attempt)
  ∧ run.2 = Normal SuccessTrue.
Proof.
  induction remaining as [|remaining IH];
    intros attempt lastError Hsum Hk Hfail Hok run; [lia|].
  subst run. destruct (decide (attempt = k)) as [->|Hne].
  - rewrite attemptLoop_resolved by done.
    replace (S k - k) with 1 by lia. replace (k - k) with 0 by lia.
    cbn. by destruct (onRetry opts).
  - rewrite (attemptLoop_rejected _ _ _ _ _ _ _ (errorAt attempt))
      by (apply Hfail; lia).
    cbn [fst snd].
    destruct (IH (S attempt) (Some (errorAt attempt))) as (Hf & Hr & Hd & Hout);
      [lia|lia|intros; apply Hfail; lia|done|].
    assert ((attempt =? maxRetries opts) = false) as Hlast
      by (apply Nat.eqb_neq; lia).
    replace (S k - attempt) with (S (S k - S attempt)) by lia.
    replace (k - attempt) with (S (k - S attempt)) by lia.
    split_and!.
    + by rewrite fetchAttempts_fetch, fetchAttempts_app,
        fetchAttempts_catchBlock, Hf.
    + rewrite onRetryCalls_fetch, onRetryCalls_app, onRetryCalls_catchBlock, Hr, Hlast.
      by destruct (onRetry opts).
    + by rewrite delays_fetch, delays_app, delays_catchBlock, Hd, Hlast.
    + done.
Qed.

(** The waits of a run in which every attempt fails. *)
Lemma attemptLoop_exhausted_delays errorAt remaining : ∀ attempt lastError,
  attempt + remaining = S (maxRetries opts) →
  (∀ j, attempt ≤ j ≤ maxRetries opts → fetch j = Rejected (errorAt j)) →
  delays (loop' remaining attempt lastError).1 =
    (λ j, (initialRetryDelay opts * Z.of_nat j)%Z) <$> seq attempt (remaining - 1).
Proof.
  induction remaining as [|remaining IH]; intros attempt lastError Hsum Hfail;
    [done|].
  rewrite (attemptLoop_rejected _ _ _ _ _ _ _ (errorAt attempt))
    by (apply Hfail; lia).
  cbn [fst]. rewrite delays_fetch, delays_app, delays_catchBlock.
  rewrite (IH (S attempt)) by (lia || (intros; apply Hfail; lia)).
  destruct remaining as [|remaining].
  - assert ((attempt =? maxRetries opts) = true) as -> by (apply Nat.eqb_eq; lia).
    done.
  - assert ((attempt =? maxRetries opts) = false) as -> by (apply Nat.eqb_neq; lia).
    replace (S (S remaining) - 1) with (S (S remaining - 1)) by lia. done.
Qed.

End submit_more.

Lemma sum_linear_delays (c : Z) n :
  (2 * foldr Z.add 0 ((λ j, c * Z.of_nat j) <$> seq 1 n)
   = c * Z.of_nat n * (Z.of_nat n + 1))%Z.
Proof.
  induction n as [|n IH]; [simpl; lia|].
  rewrite seq_S, fmap_app, foldr_app. simpl.
  assert (∀ (l : list Z) a, foldr Z.add a l = (foldr Z.add 0 l + a)%Z) as Hacc.
  { induction l as [|x l IHl]; intros a; simpl; [lia|]. rewrite IHl. lia. }
  rewrite Hacc. lia.
Qed.

(** X22.  Whatever the transport does, [submitForm] sends at most
    [maxRetries] requests, and they are the attempts 1, 2, ... in order. *)
Theorem submitForm_attempts_bounded fetch data scriptUrl opts :
  ∃ k, k ≤ Submission.maxRetries opts
       ∧ Submission.fetchAttempts
           (Submission.submitForm fetch data scriptUrl opts).1 = seq 1 k.
Proof.
  unfold Submission.submitForm.
  destruct scriptUrl as [url|]; [|by exists 0; split; [lia|]].
  destruct (negb _); [by exists 0; split; [lia|]|].
  apply attemptLoop_attempts.
Qed.

(** X23.  With an endpoint configured, [submitForm] resolves iff one of the
    attempts 1..maxRetries resolves; otherwise it throws the aggregate
    error. *)
Theorem submitForm_resolves_iff fetch data url opts :
  url ≠ EmptyString →
  let outcome := (Submission.submitForm fetch data (Some url) opts).2 in
  (outcome = Js.Normal Submission.SuccessTrue
   ↔ ∃ k, 1 ≤ k ≤ Submission.maxRetries opts ∧ fetch k = Submission.Resolved)
  ∧ (∀ message, outcome = Js.Throw message →
       ∃ lastError, message = Submission.exhaustedMessage opts lastError).
Proof.
  intros Hurl outcome. subst outcome. unfold Submission.submitForm.
  apply toBoolean_Str in Hurl. rewrite Hurl. cbn [negb]. split.
  - rewrite attemptLoop_resolves. split.
    + intros (k & Hk & Hr). exists k. split; [lia|done].
    + intros (k & Hk & Hr). exists k. split; [lia|done].
  - apply attemptLoop_throws.
Qed.

Lemma submitForm_resolves_iff_witness :
  let fetch := λ attempt,
    match attempt with
    | 2 => Submission.Resolved
    | _ => Submission.Rejected (Submission.mkFetchError "TypeError" true "Failed to fetch")
    end in
  let data := Submission.normalizeFormData "t" [] ∅ ∅ "fine" in
  (Submission.submitForm fetch data (Some "https://example.org/exec")
     Submission.defaultOptions).2 = Js.Normal Submission.SuccessTrue.
Proof.
  intros fetch data.
  destruct (submitForm_resolves_iff fetch data "https://example.org/exec"
              Submission.defaultOptions) as [Hiff _]; [done|].
  apply Hiff. exists 2. split; [|reflexivity].
  cbv [Submission.maxRetries Submission.defaultOptions Submission.DEFAULT_MAX_RETRIES].
  lia.
Defined.

(** X24.  The run up to the first success.  When the attempts before [k]
    fail and attempt [k ≤ maxRetries] resolves, the requests are exactly the
    attempts 1..k, [onRetry] (if supplied) is called once for each of the
    attempts 1..k-1 with the classified error and the delay
    [initialRetryDelay * j], the waits are those delays, and [submitForm]
    resolves. *)
Theorem submitForm_first_success fetch data url opts errorAt k :
  url ≠ EmptyString →
  1 ≤ k ≤ Submission.maxRetries opts →
  (∀ j, 1 ≤ j < k → fetch j = Submission.Rejected (errorAt j)) →
  fetch k = Submission.Resolved →
  let run := Submission.submitForm fetch data (Some url) opts in
  Submission.fetchAttempts run.1 = seq 1 k
  ∧ Submission.onRetryCalls run.1 =
      (if Submission.onRetry opts
       then (λ j, (j, Submission.errorMessage opts (errorAt j),
                   (Submission.initialRetryDelay opts * Z.of_nat j)%Z))
              <$> seq 1 (k - 1)
       else [])
  ∧ Submission.delays run.1 =
      (λ j, (Submission.initialRetryDelay opts * Z.of_nat j)%Z) <$> seq 1 (k - 1)
  ∧ run.2 = Js.Normal Submission.SuccessTrue.
Proof.
  intros Hurl Hk Hfail Hok run. subst run. unfold Submission.submitForm.
  apply toBoolean_Str in Hurl. rewrite Hurl. cbn [negb].
  destruct (attemptLoop_first_success fetch data url opts errorAt k
              (Submission.maxRetries opts) 1 None) as (Hf & Hr & Hd & Hout);
    [lia|lia|done|done|].
  replace (S k - 1) with k in Hf by lia. done.
Qed.

Lemma submitForm_first_success_witness :
  let failure := Submission.mkFetchError "AbortError" false "The operation was aborted." in
  let fetch := λ attempt,
    match attempt with
    | 2 => Submission.Resolved
    | _ => Submission.Rejected failure
    end in
  let data := Submission.normalizeFormData "t" [] ∅ ∅ "fine" in
  let run := Submission.submitForm fetch data (Some "https://example.org/exec")
               (Submission.mkOptions 3 5000 1000 true) in
  Submission.fetchAttempts run.1 = [1; 2]
  ∧ Submission.delays run.1 = [1000%Z].
Proof.
  intros failure fetch data run.
  destruct (submitForm_first_success fetch data "https://example.org/exec"
              (Submission.mkOptions 3 5000 1000 true) (λ _, failure) 2)
    as (Hf & _ & Hd & _).
  - done.
  - simpl. lia.
  - intros j Hj. assert (j = 1) as -> by lia. reflexivity.
  - reflexivity.
  - split; [exact Hf|exact Hd].
Defined.

(** X25.  The waiting of an exhausted call.  When every attempt fails, the
    waits are [initialRetryDelay * j] for j = 1..maxRetries-1, there is none
    after the last attempt, and they add up to
    [initialRetryDelay * maxRetries * (maxRetries - 1) / 2]. *)
Theorem submitForm_exhaustion_delays fetch data url opts errorAt :
  url ≠ EmptyString →
  (∀ j, 1 ≤ j ≤ Submission.maxRetries opts →
        fetch j = Submission.Rejected (errorAt j)) →
  let waits :=
    Submission.delays (Submission.submitForm fetch data (Some url) opts).1 in
  let n := Z.of_nat (Submission.maxRetries opts) in
  waits = (λ j, (Submission.initialRetryDelay opts * Z.of_nat j)%Z)
            <$> seq 1 (Submission.maxRetries opts - 1)
  ∧ (2 * foldr Z.add 0 waits
     = Submission.initialRetryDelay opts * n * (n - 1))%Z.
Proof.
  intros Hurl Hfail waits n. subst waits n. unfold Submission.submitForm.
  apply toBoolean_Str in Hurl. rewrite Hurl. cbn [negb].
  rewrite (attemptLoop_exhausted_delays fetch data url opts errorAt) by (lia || done).
  split; [done|]. rewrite sum_linear_delays.
  destruct (Submission.maxRetries opts) as [|m]; [simpl; lia|].
  replace (S m - 1) with m by lia. lia.
Qed.

Lemma submitForm_exhaustion_delays_witness :
  let fetch := λ _ : nat,
    Submission.Rejected (Submission.mkFetchError "Error" false "boom") in
  let data := Submission.normalizeFormData "t" [] ∅ ∅ "fine" in
  Submission.delays
    (Submission.submitForm fetch data (Some "https://example.org/exec")
       (Submission.mkOptions 4 5000 1000 false)).1
  = [1000%Z; 2000%Z; 3000%Z].
Proof.
  intros fetch data.
  destruct (submitForm_exhaustion_delays fetch data "https://example.org/exec"
              (Submission.mkOptions 4 5000 1000 false)
              (λ _, Submission.mkFetchError "Error" false "boom"))
    as [Hwaits _]; [done|done|].
  exact Hwaits.
Defined.



(** X27.  With [maxRetries = 0] the loop body never runs: no request is
    sent and the call throws the aggregate error, which then speaks of 0
    attempts and of an unknown error. *)
Theorem submitForm_zero_retries fetch data url timeout delay callback :
  url ≠ EmptyString →
  Submission.submitForm fetch data (Some url)
    (Submission.mkOptions 0 timeout delay callback)
  = ([], Js.Throw "Form submission failed after 0 attempts: Unknown error").
Proof.
  intros Hurl. unfold Submission.submitForm.
  apply toBoolean_Str in Hurl. rewrite Hurl. reflexivity.
Qed.

Lemma submitForm_zero_retries_witness :
  Submission.submitForm (λ _, Submission.Resolved)
    (Submission.normalizeFormData "t" [] ∅ ∅ "fine")
    (Some "https://example.org/exec") (Submission.mkOptions 0 5000 1000 true)
  = ([], Js.Throw "Form submission failed after 0 attempts: Unknown error").
Proof. apply submitForm_zero_retries. done. Defined.

(** ** Error texts *)

Section message_facts.
Import Js Submission Messages.

Lemma includes_append_l pre s t :
  includes s t = true → includes (pre +:+ s) t = true.
Proof.
  intros Hs. induction pre as [|c pre IH]; [done|].
  rewrite append_cons. cbn [includes]. rewrite IH. apply orb_true_r.
Qed.

Lemma includes_nonempty s t :
  includes s t = true → t ≠ EmptyString → s ≠ EmptyString.
Proof. intros Hs Ht ->. destruct t; [done|]. discriminate Hs. Qed.

Lemma timeout_message_described x :
  getErrorMessage (Some ("Request timeout after " +:+ x)) = timeoutText.
Proof.
  assert (includes ("Request timeout after " +:+ x) "timeout" = true) as Hinc.
  { change ("Request timeout after " +:+ x)
      with ("Request " +:+ ("timeout after " +:+ x)).
    apply includes_append_l. reflexivity. }
  assert ("Request timeout after " +:+ x ≠ EmptyString) as Hne
    by (by apply (includes_nonempty _ "timeout")).
  unfold getErrorMessage. apply toBoolean_Str in Hne. by rewrite Hne, Hinc.
Qed.

End message_facts.

(** X28.  How the errors of [submitForm] read to the user.  What [onRetry]
    is told about an aborted request is described as a timeout, and about a
    [TypeError] as a connection problem; the configuration error is
    described as a misconfiguration; and an aggregate error is described as
    a timeout whenever the message of the last failure contains the word
    [timeout]. *)
Theorem getErrorMessage_of_submit_errors opts error :
  (Submission.name error = "AbortError" →
   Messages.getErrorMessage (Some (Submission.errorMessage opts error))
   = Messages.timeoutText)
  ∧ (Submission.name error ≠ "AbortError" → Submission.isTypeError error = true →
     Messages.getErrorMessage (Some (Submission.errorMessage opts error))
     = Messages.networkText)
  ∧ Messages.getErrorMessage (Some Submission.configurationError)
    = Messages.configurationText
  ∧ (Js.includes (Submission.message error) "timeout" = true →
     Messages.getErrorMessage
       (Some (Submission.exhaustedMessage opts (Some error)))
     = Messages.timeoutText).
Proof.
  split_and!.
  - intros Hname. unfold Submission.errorMessage.
    rewrite bool_decide_eq_true_2 by done.
    apply timeout_message_described.
  - intros Hname Htype. unfold Submission.errorMessage.
    rewrite bool_decide_eq_false_2 by done. rewrite Htype. reflexivity.
  - reflexivity.
  - intros Hinc. unfold Messages.getErrorMessage.
    assert (Js.includes (Submission.exhaustedMessage opts (Some error)) "timeout"
            = true) as Hagg.
    { unfold Submission.exhaustedMessage, Submission.lastMessage.
      assert (Submission.message error ≠ EmptyString) as Hne
        by (by apply (includes_nonempty _ "timeout")).
      apply toBoolean_Str in Hne. rewrite Hne.
      apply includes_append_l, includes_append_l, includes_append_l. done. }
    assert (Submission.exhaustedMessage opts (Some error) ≠ EmptyString) as Hne
      by (by apply (includes_nonempty _ "timeout")).
    apply toBoolean_Str in Hne. rewrite Hne. by rewrite Hagg.
Qed.

Lemma getErrorMessage_of_submit_errors_witness :
  Messages.getErrorMessage
    (Some (Submission.errorMessage Submission.defaultOptions
             (Submission.mkFetchError "AbortError" false "The operation was aborted.")))
  = Messages.timeoutText.
Proof.
  destruct (getErrorMessage_of_submit_errors Submission.defaultOptions
              (Submission.mkFetchError "AbortError" false "The operation was aborted."))
    as (Habort & _).
  by apply Habort.
Defined.

(** ** The submit handler of the form *)

Section app_facts.
Import Js Validation Submission App.

Lemma sanitizeEntry_Normal acc key value :
  sanitizeEntry (Normal acc) (key, value)
  = Normal (<[key := cleanText Sanitization.MAX_TEXT_LENGTH value]> acc).
Proof.
  unfold sanitizeEntry. cbn [bind]. by rewrite sanitizeTextInput_Str.
Qed.

Lemma sanitize_loop entries : ∀ acc,
  foldl sanitizeEntry (Normal acc) entries
  = Normal (foldl (λ acc entry,
                     <[entry.1 := cleanText Sanitization.MAX_TEXT_LENGTH entry.2]> acc)
                  acc entries).
Proof.
  induction entries as [|[key value] entries IH]; intros acc; [done|].
  cbn [foldl]. by rewrite sanitizeEntry_Normal, IH.
Qed.

Lemma insert_loop_lookup (f : string → string) entries :
  ∀ (acc : gmap string string) key,
  NoDup entries.*1 →
  foldl (λ acc entry, <[entry.1 := f entry.2]> acc) acc entries !! key
  = match (list_to_map entries : gmap string string) !! key with
    | Some value => Some (f value)
    | None => acc !! key
    end.
Proof.
  induction entries as [|[k v] entries IH]; intros acc key Hnd; [done|].
  rewrite fmap_cons, NoDup_cons in Hnd. destruct Hnd as [Hk Hnd].
  cbn [foldl list_to_map foldr fst snd]. rewrite IH by done.
  fold (list_to_map (M:=gmap string string) entries).
  destruct (decide (key = k)) as [->|Hne].
  - rewrite (not_elem_of_list_to_map_1 entries k Hk).
    by rewrite !lookup_insert_eq.
  - by rewrite !lookup_insert_ne.
Qed.

Lemma sanitizeOtherText_fmap (otherText : gmap string string) :
  sanitizeOtherText otherText
  = Normal (cleanText Sanitization.MAX_TEXT_LENGTH <$> otherText).
Proof.
  unfold sanitizeOtherText. rewrite sanitize_loop. f_equal.
  apply map_eq. intros key.
  rewrite insert_loop_lookup by apply NoDup_fst_map_to_list.
  rewrite list_to_map_to_list, lookup_fmap, lookup_empty.
  by destruct (otherText !! key).
Qed.

Lemma handleSubmit_valid now scriptUrl fetch questions responses otherText finalComment :
  isValid (validateForm questions responses finalComment) = true →
  let data := preparedData now questions responses otherText finalComment in
  let run := submitForm fetch data scriptUrl submitOptions in
  handleSubmit now scriptUrl fetch questions responses otherText finalComment
  = (run.1,
     match run.2 with
     | Normal _ => ThankYou data
     | Throw e => SubmissionError (Messages.getErrorMessage (Some e))
     end).
Proof.
  intros Hvalid data run. unfold handleSubmit. rewrite Hvalid. cbn [negb].
  rewrite sanitizeOtherText_fmap. cbn [bind].
  unfold Sanitization.sanitizeCommentInput. rewrite sanitizeTextInput_Str.
  cbn [bind]. subst run.
  match goal with
  | |- context [submitForm fetch ?d scriptUrl submitOptions] =>
      change d with data
  end.
  by destruct (submitForm fetch data scriptUrl submitOptions) as [trace [?|?]].
Qed.

Lemma length_cleanText maxLength s :
  (0 ≤ maxLength)%Z →
  (Z.of_nat (String.length (cleanText maxLength s)) ≤ maxLength)%Z.
Proof.
  intros Hmax. unfold cleanText.
  etrans; [apply inj_le, length_replaceAllFrom|]. by apply length_slice0.
Qed.

End app_facts.

Section app_submit_facts.
Import Js Submission.

Lemma submitForm_attempts fetch data scriptUrl opts :
  ∃ k, k ≤ maxRetries opts
       ∧ fetchAttempts (submitForm fetch data scriptUrl opts).1 = seq 1 k.
Proof.
  unfold submitForm.
  destruct scriptUrl as [url|]; [|by exists 0; split; [lia|]].
  destruct (negb _); [by exists 0; split; [lia|]|].
  apply attemptLoop_attempts.
Qed.

Lemma submitForm_Normal fetch data scriptUrl opts :
  (submitForm fetch data scriptUrl opts).2 = Normal SuccessTrue
  ↔ (∃ url, scriptUrl = Some url ∧ url ≠ EmptyString)
    ∧ ∃ k, 1 ≤ k ≤ maxRetries opts ∧ fetch k = Resolved.
Proof.
  unfold submitForm. destruct scriptUrl as [url|].
  2:{ split; [done|]. by intros [(? & ? & _) _]. }
  destruct (toBoolean (Str url)) eqn:Hb; cbn [negb].
  - rewrite attemptLoop_resolves. apply toBoolean_Str in Hb. split.
    + intros (k & Hk & Hr). split; [by exists url|]. exists k. split; [lia|done].
    + intros [_ (k & Hk & Hr)]. exists k. split; [lia|done].
  - apply not_true_iff_false in Hb. rewrite toBoolean_Str in Hb.
    split; [done|]. intros [(url' & ? & Hne) _]. by simplify_eq.
Qed.

Lemma catchBlock_no_fetch opts attempt error a url body :
  EvFetch a url body ∉ catchBlock opts attempt error.
Proof.
  unfold catchBlock.
  destruct (negb _), (onRetry opts); cbn [app];
    rewrite ?elem_of_cons, ?elem_of_nil; naive_solver.
Qed.

Lemma attemptLoop_requests fetch data scriptUrl opts remaining :
  ∀ attempt lastError a url body,
  EvFetch a url body ∈ (attemptLoop fetch data scriptUrl opts remaining attempt lastError).1 →
  url = scriptUrl ∧ body = data.
Proof.
  induction remaining as [|remaining IH]; intros attempt lastError a url body Hin.
  - by apply elem_of_nil in Hin.
  - destruct (fetch attempt) as [|error] eqn:Hf.
    + rewrite attemptLoop_resolved in Hin by done.
      apply list_elem_of_singleton in Hin. by simplify_eq.
    + rewrite (attemptLoop_rejected _ _ _ _ _ _ _ error) in Hin by done.
      cbn [fst] in Hin. apply elem_of_cons in Hin as [Heq|Hin]; [by simplify_eq|].
      apply elem_of_app in Hin as [Hin|Hin].
      * by apply catchBlock_no_fetch in Hin.
      * by apply IH in Hin.
Qed.

Lemma submitForm_requests fetch data scriptUrl opts a url body :
  EvFetch a url body ∈ (submitForm fetch data scriptUrl opts).1 →
  scriptUrl = Some url ∧ body = data.
Proof.
  unfold submitForm. destruct scriptUrl as [url'|]; [|by intros ?%elem_of_nil].
  destruct (negb _); [by intros ?%elem_of_nil|].
  intros [-> ->]%attemptLoop_requests. done.
Qed.

End app_submit_facts.

(** X29.  [handleSubmit] never sends an invalid form: when validation fails
    it shows the errors and the element to scroll to, and no request is made.
    For a valid form without endpoint it shows the misconfiguration text,
    again without a request.  In every case the requests are at most the
    attempts 1, 2, 3. *)
Theorem handleSubmit_guards now scriptUrl fetch questions
    (responses : gmap string (gmap nat string)) otherText finalComment :
  let result := Validation.validateForm questions responses finalComment in
  let run := App.handleSubmit now scriptUrl fetch questions responses
               otherText finalComment in
  (Validation.isValid result = false →
   run = ([], App.ValidationErrors (Validation.errors result)
                (Focus.getFirstUnansweredElementId (Validation.errors result))))
  ∧ (Validation.isValid result = true →
     scriptUrl = None ∨ scriptUrl = Some EmptyString →
     run = ([], App.SubmissionError Messages.configurationText))
  ∧ ∃ k, k ≤ 3 ∧ Submission.fetchAttempts run.1 = seq 1 k.
Proof.
  intros result run. subst result run. split_and!.
  - intros Hinvalid. unfold App.handleSubmit. by rewrite Hinvalid.
  - intros Hvalid Hurl. rewrite handleSubmit_valid by done.
    by destruct Hurl as [->| ->].
  - destruct (Validation.isValid
                (Validation.validateForm questions responses finalComment))
      eqn:Hvalid.
    + rewrite handleSubmit_valid by done. cbn [fst].
      apply (submitForm_attempts fetch _ scriptUrl App.submitOptions).
    + unfold App.handleSubmit. rewrite Hvalid. by exists 0; split; [lia|].
Qed.

Lemma handleSubmit_guards_witness :
  let q1 := Question.mk "q1" "Which?" None ["A"; "B"] in
  App.handleSubmit "t" (Some "https://example.org/exec") (λ _, Submission.Resolved)
    [q1] ∅ ∅ "fine"
  = ([], App.ValidationErrors
           [Validation.QuestionError "q1" 0 "Question 1: Which?..."]
           (Some "question-q1")).
Proof.
  intros q1.
  destruct (handleSubmit_guards "t" (Some "https://example.org/exec")
              (λ _, Submission.Resolved) [q1] ∅ ∅ "fine") as (Hinvalid & _).
  apply Hinvalid. reflexivity.
Defined.

(** X30.  [handleSubmit] shows the thank-you page iff the form is valid, an
    endpoint is configured and one of the attempts 1..3 resolves.  Every
    request then carried the normalized responses with the sanitized texts:
    no entry of the responses is unset, each free text has at most 5000 code
    units and the comment at most 10000. *)
Theorem handleSubmit_success now scriptUrl fetch questions
    (responses : gmap string (gmap nat string)) otherText finalComment :
  let run := App.handleSubmit now scriptUrl fetch questions responses
               otherText finalComment in
  ((∃ data, run.2 = App.ThankYou data)
   ↔ Validation.isValid
       (Validation.validateForm questions responses finalComment) = true
     ∧ (∃ url, scriptUrl = Some url ∧ url ≠ EmptyString)
     ∧ ∃ k, 1 ≤ k ≤ 3 ∧ fetch k = Submission.Resolved)
  ∧ (∀ data,
       run.2 = App.ThankYou data →
       data = preparedData now questions responses otherText finalComment
       ∧ (∀ attempt url body,
            Submission.EvFetch attempt url body ∈ run.1 →
            scriptUrl = Some url ∧ body = data)
       ∧ (∀ qId optIdx rank,
            getRank (Submission.responses data) qId optIdx = Some rank →
            rank ≠ UNSET)
       ∧ (∀ key text,
            Submission.otherText data !! key = Some text →
            (Z.of_nat (String.length text) ≤ 5000)%Z)
       ∧ (Z.of_nat (String.length (Submission.finalComment data)) ≤ 10000)%Z).
Proof.
  intros run. subst run.
  destruct (Validation.isValid
              (Validation.validateForm questions responses finalComment)) eqn:Hvalid.
  2:{ unfold App.handleSubmit. rewrite Hvalid. cbn [negb snd]. split.
      - split; [by intros [? ?]|by intros [? _]].
      - by intros data ?. }
  rewrite handleSubmit_valid by done. cbn [fst snd].
  pose proof (submitForm_Normal fetch
                (preparedData now questions responses otherText finalComment)
                scriptUrl App.submitOptions) as Hnormal.
  destruct (Submission.submitForm fetch _ scriptUrl App.submitOptions)
    as [trace [[]|message]] eqn:Hrun; cbn [fst snd] in *.
  - split.
    + split; [|by eexists]. intros _. split; [done|]. by apply Hnormal.
    + intros data [= <-]. split_and!; [done| | | |].
      * intros attempt url body Hin.
        apply (submitForm_requests fetch _ scriptUrl App.submitOptions attempt).
        by rewrite Hrun.
      * intros qId optIdx rank Hr. unfold getRank in Hr.
        destruct (Submission.responses _ !! qId) as [entry|] eqn:Hentry; [|done].
        apply payload_lookup in Hentry as (q & _ & _ & ->). simpl in Hr.
        unfold Submission.entryOf in Hr. rewrite fillEntry_lookup in Hr.
        case_decide; [|done]. simplify_eq. apply orNo_set.
      * intros key text Hl. unfold preparedData in Hl.
        cbn [Submission.otherText Submission.normalizeFormData] in Hl.
        rewrite lookup_fmap in Hl. destruct (otherText !! key) as [raw|]; [|done].
        simpl in Hl. simplify_eq.
        by apply (length_cleanText Sanitization.MAX_TEXT_LENGTH raw).
      * by apply (length_cleanText Sanitization.MAX_COMMENT_LENGTH finalComment).
  - split.
    + split; [by intros [? ?]|]. intros (_ & Hurl & Hk).
      by destruct Hnormal as [_ Hnormal]; specialize (Hnormal (conj Hurl Hk)).
    + by intros data ?.
Qed.

Lemma handleSubmit_success_witness :
  let q1 := Question.mk "q1" "Which?" None ["A"; "B"] in
  let run := App.handleSubmit "t" (Some "https://example.org/exec")
               (λ _, Submission.Resolved) [q1]
               (Ranking.updateRank "q1" 0 "1" ∅) ∅ "  fine  " in
  ∃ data, run.2 = App.ThankYou data ∧ Submission.finalComment data = "fine".
Proof.
  intros q1 run.
  destruct (handleSubmit_success "t" (Some "https://example.org/exec")
              (λ _, Submission.Resolved) [q1]
              (Ranking.updateRank "q1" 0 "1" ∅) ∅ "  fine  ") as [Hiff Hdata].
  destruct Hiff as [_ Hshow].
  destruct Hshow as [data Hthanks].
  - split_and!.
    + vm_compute. reflexivity.
    + by eexists.
    + exists 1. split; [lia|reflexivity].
  - exists data. split; [exact Hthanks|].
    destruct (Hdata data Hthanks) as (-> & _). vm_compute. reflexivity.
Defined.
